(** * bun-security-scanner/npm: the query / match / classify pipeline

    A shallow embedding of the scanner's TypeScript sources

      - [src/types.ts]      ([NpmSeverity], [level], [Package], [Advisory])
      - [src/constants.ts]  (module [Constants])
      - [src/severity.ts]   (module [Severity])
      - [src/schema.ts]     (module [Schema])
      - [src/processor.ts]  (module [Processor])
      - [src/client.ts]     (module [Client])
      - [src/index.ts]      (module [Scanner])

    together with the properties the specification states about them.

    Conventions of the embedding.

    - A JavaScript string is a Rocq [string]; one [ascii] stands for one
      UTF-16 code unit, so [String.length] is the [.length] of the source.
    - An object used as a map is a [gmap]; reading a property of an object
      literal also finds the members of [Object.prototype] ([JS.get]).
    - A call that may throw is a computation in the monad [M]: it reads and
      extends the list of bulk requests already sent to the registry and ends
      in an [outcome]: it returns, it throws, or it runs out of loop fuel.
      [try_catch] is the source's [try { } catch { }].
    - The world outside is a parameter: [respond] is the registry's answer to
      a bulk request as [withRetry] (retry.ts) and [response.json()] deliver
      it, and [satisfies] is the runtime's [Bun.semver.satisfies]; both
      return or throw. Module [Semver] is a matcher written after section 4.3
      of the specification, to run the processor on version strings.
    - [getConfig] reads [Bun.env] and the numbers of the runtime ([Number],
      [Number.isNaN]); these are parameters as well.
    - Calls of [logger] (logger.ts) write diagnostics only and are left
      out. *)

From Stdlib Require Import ZArith Lia Ascii String.
From stdpp Require Import base tactics option list strings gmap pretty.

Local Open Scope string_scope.
Local Open Scope list_scope.
Local Open Scope nat_scope.

(* ===================================================================== *)
(** * The JavaScript fragment the sources use *)
(* ===================================================================== *)

Module JS.

(** What a [throw] carries. *)
Inductive exn : Type :=
| TypeError (message : string)
| ZodError (message : string)
| Error (message : string).

(** The result of a call into the world outside the repository. *)
Inductive result (A : Type) : Type :=
| Ok (a : A)
| Err (e : exn).
Arguments Ok {A} a.
Arguments Err {A} e.

(** How a computation of the repository ends. [Diverges] is a loop that
    has used up its fuel; no [catch] sees it. *)
Inductive outcome (A : Type) : Type :=
| Returns (a : A)
| Throws (e : exn)
| Diverges.
Arguments Returns {A} a.
Arguments Throws {A} e.
Arguments Diverges {A}.

Definition of_result {A} (r : result A) : outcome A :=
  match r with
  | Ok a => Returns a
  | Err e => Throws e
  end.

(** ** Strings *)

(** [WhiteSpace] and [LineTerminator] code units below 256. *)
Definition is_white_space (c : ascii) : bool :=
  match nat_of_ascii c with
  | 9 | 10 | 11 | 12 | 13 | 32 | 160 => true
  | _ => false
  end.

Fixpoint trimStart (s : string) : string :=
  match s with
  | EmptyString => EmptyString
  | String c s' => if is_white_space c then trimStart s' else s
  end.

Fixpoint trimEnd (s : string) : string :=
  match s with
  | EmptyString => EmptyString
  | String c s' =>
      match trimEnd s' with
      | EmptyString => if is_white_space c then EmptyString else String c EmptyString
      | t => String c t
      end
  end.

(** [String.prototype.trim] *)
Definition trim (s : string) : string := trimEnd (trimStart s).

(** [s.substring(from, to)] for [from <= to] *)
Definition substring (s : string) (from to : nat) : string :=
  String.substring from (to - from) s.

(** A string is truthy when it is not empty. *)
Definition truthy (s : string) : bool :=
  match s with
  | EmptyString => false
  | String _ _ => true
  end.

(** [a || b] on optional strings: [undefined] and [""] are falsy. *)
Definition or_else (a b : option string) : option string :=
  match a with
  | Some s => if truthy s then Some s else b
  | None => b
  end.

(** [Array.prototype.includes] on an array of strings *)
Definition includes (l : list string) (x : string) : bool :=
  bool_decide (x ∈ l).

(** [a.slice(from, to)] on an array, for [from <= to] *)
Definition slice {A} (l : list A) (from to : nat) : list A :=
  take (to - from) (drop from l).

(** ** Object literals

    An object created by [{}] inherits from [Object.prototype]: reading a
    property it does not own finds these members, all of them truthy (eleven
    functions and the [__proto__] accessor, which yields the prototype). *)
Definition Object_prototype : list string :=
  [ "constructor"; "__defineGetter__"; "__defineSetter__"; "hasOwnProperty";
    "__lookupGetter__"; "__lookupSetter__"; "isPrototypeOf";
    "propertyIsEnumerable"; "toString"; "valueOf"; "__proto__";
    "toLocaleString" ].

(** What [obj[key]] evaluates to, for an object literal whose own
    properties all hold values of type [V]. *)
Inductive property (V : Type) : Type :=
| Own (v : V)
| Inherited
| Undefined.
Arguments Own {V} v.
Arguments Inherited {V}.
Arguments Undefined {V}.

Definition get {V} (obj : gmap string V) (key : string) : property V :=
  match obj !! key with
  | Some v => Own v
  | None => if bool_decide (key ∈ Object_prototype) then Inherited else Undefined
  end.

(** [a ?? b], for [a] read from an object literal *)
Definition nullish {V} (a : property V) (b : V) : property V :=
  match a with
  | Undefined => Own b
  | _ => a
  end.

(** [String.prototype.toLowerCase] on code units below 256: the letters
    [A] to [Z], and [À] to [Þ] without the multiplication sign. *)
Definition toLowerCase_unit (c : ascii) : ascii :=
  let n := nat_of_ascii c in
  if (65 <=? n) && (n <=? 90) || (192 <=? n) && (n <=? 222) && negb (n =? 215)
  then ascii_of_nat (n + 32)
  else c.

Fixpoint toLowerCase (s : string) : string :=
  match s with
  | EmptyString => EmptyString
  | String c s' => String (toLowerCase_unit c) (toLowerCase s')
  end.

End JS.

Import JS.

(* ===================================================================== *)
(** * Computations that may throw *)
(* ===================================================================== *)

(** The body of a bulk request: package name to requested versions
    ([NpmAuditRequest] of [schema.ts]). *)
Abbreviation NpmAuditRequest := (gmap string (list string)).

(** The requests sent to the registry so far, oldest first. *)
Abbreviation sent := (list NpmAuditRequest).

Module Effects.

#[global] Instance result_ret : MRet result := λ A a, Ok a.

#[global] Instance result_bind : MBind result := λ A B f m,
  match m with
  | Ok a => f a
  | Err e => Err e
  end.

#[global] Instance outcome_ret : MRet outcome := λ A a, Returns a.

#[global] Instance outcome_bind : MBind outcome := λ A B f m,
  match m with
  | Returns a => f a
  | Throws e => Throws e
  | Diverges => Diverges
  end.

(** [try { body } catch (e) { handler(e) }] without side effects *)
Definition try_catch_pure {A} (body : outcome A) (handler : exn → outcome A)
  : outcome A :=
  match body with
  | Throws e => handler e
  | o => o
  end.

Definition M (A : Type) : Type := sent → outcome A * sent.

#[global] Instance M_ret : MRet M := λ A a w, (Returns a, w).

#[global] Instance M_bind : MBind M := λ A B f m w,
  match m w with
  | (Returns a, w') => f a w'
  | (Throws e, w') => (Throws e, w')
  | (Diverges, w') => (Diverges, w')
  end.

Definition diverge {A} : M A := λ w, (Diverges, w).

Definition lift {A} (o : outcome A) : M A := λ w, (o, w).

(** [try { body } catch (e) { handler(e) }]: what [body] sent before it
    threw stays sent. *)
Definition try_catch {A} (body : M A) (handler : exn → M A) : M A := λ w,
  match body w with
  | (Throws e, w') => handler e w'
  | r => r
  end.

End Effects.

Import Effects.

(* ===================================================================== *)
(** * types.ts and the host's types *)
(* ===================================================================== *)

Inductive NpmSeverity : Type := critical | high | moderate | low | info.

#[global] Instance NpmSeverity_eq_dec : EqDecision NpmSeverity.
Proof. solve_decision. Defined.

(** The two advisory levels of the host. *)
Inductive level : Type := fatal | warn.

#[global] Instance level_eq_dec : EqDecision level.
Proof. solve_decision. Defined.

(** [Bun.Security.Package] *)
Module Package.
Record t : Type := {
  name : string;
  version : string;
  requestedRange : string;
  tarball : string
}.
#[global] Instance eq_dec : EqDecision t.
Proof. solve_decision. Defined.
End Package.

(** [Bun.Security.Advisory] *)
Module Advisory.
Record t : Type := {
  id : string;
  message : string;
  level : level;
  package : string;
  url : string;
  description : option string
}.
#[global] Instance eq_dec : EqDecision t.
Proof. solve_decision. Defined.
End Advisory.

(* ===================================================================== *)
(** * constants.ts *)
(* ===================================================================== *)

Module Constants.

Record NPM_AUDIT_API_t : Type := {
  MAX_RETRY_ATTEMPTS : nat;
  MAX_PACKAGES_PER_REQUEST : nat
}.

Definition NPM_AUDIT_API : NPM_AUDIT_API_t := {|
  MAX_RETRY_ATTEMPTS := 2;
  MAX_PACKAGES_PER_REQUEST := 1000
|}.

Record SECURITY_t : Type := {
  FATAL_SEVERITIES : list NpmSeverity;
  MAX_VULNERABILITIES_PER_PACKAGE : nat;
  MAX_DESCRIPTION_LENGTH : nat
}.

Definition SECURITY : SECURITY_t := {|
  FATAL_SEVERITIES := [critical; high];
  MAX_VULNERABILITIES_PER_PACKAGE := 100;
  MAX_DESCRIPTION_LENGTH := 200
|}.

(** ** Configuration from the environment *)

Section Config.

(** The numbers of the runtime, with [Number(text)] and [Number.isNaN]. *)
Variable number : Type.
Variable Number : string → number.
Variable isNaN : number → bool.

(** [Bun.env]: the value of an environment variable, when it is set. *)
Variable env : string → option string.

(** A configuration value, by its [typeof]: a string, a number, a
    boolean, or a value of another type. *)
Inductive setting : Type :=
| Str (s : string)
| Num (n : number)
| Bool (b : bool)
| Other.

Definition getConfig (envVar : string) (defaultValue : setting)
    (parser : option (string → result setting)) : setting :=
  match env envVar with
  | None => defaultValue
  | Some envValue =>
      if negb (truthy envValue) then defaultValue
      else
        match parser with
        | Some parser =>
            match parser envValue with
            | Ok value => value
            | Err _ => defaultValue
            end
        | None =>
            match defaultValue with
            | Num _ =>
                let parsed := Number envValue in
                if isNaN parsed then defaultValue else Num parsed
            | Bool _ => Bool (bool_decide (toLowerCase envValue = "true"))
            | _ => Str envValue
            end
        end
  end.

End Config.

Arguments Str {number} s.
Arguments Num {number} n.
Arguments Bool {number} b.
Arguments Other {number}.

End Constants.

Import Constants.

(* ===================================================================== *)
(** * severity.ts *)
(* ===================================================================== *)

Module Severity.

Definition isFatalSeverity (severity : NpmSeverity) : bool :=
  bool_decide (severity ∈ FATAL_SEVERITIES SECURITY).

Definition mapSeverityToLevel (severity : NpmSeverity) : level :=
  if isFatalSeverity severity then fatal else warn.

(** The string that a severity is at run time. *)
Definition label (severity : NpmSeverity) : string :=
  match severity with
  | critical => "critical"
  | high => "high"
  | moderate => "moderate"
  | low => "low"
  | info => "info"
  end.

Definition priorityMap : gmap string nat :=
  {[ "critical" := 5; "high" := 4; "moderate" := 3; "low" := 2; "info" := 1 ]}.

(** [severityToPriority], on the string it is called with: the type
    [NpmSeverity] does not hold at run time, and [priorityMap] is an object
    literal. *)
Definition severityToPriority (severity : string) : property nat :=
  nullish (JS.get priorityMap severity) 0.

End Severity.

(* ===================================================================== *)
(** * schema.ts *)
(* ===================================================================== *)

Module Schema.

(** A decoded response body, as [response.json()] yields it. An object
    lists its own properties in enumeration order, each key once. A number
    is an integer here (one that [String] prints in full): the repository
    reads no fractional one. *)
#[warnings="-register-all"] Inductive json : Type :=
| JNull
| JBool (b : bool)
| JNumber (n : Z)
| JString (s : string)
| JArray (items : list json)
| JObject (fields : list (string * json)).

(** [data[key]]: [None] is [undefined]. *)
Fixpoint field (fields : list (string * json)) (key : string) : option json :=
  match fields with
  | [] => None
  | (k, v) :: rest => if bool_decide (k = key) then Some v else field rest key
  end.

(** ** The zod combinators the schemas are built from

    A schema checks a value ([None] for [undefined]) and yields the typed
    value or the validation error. *)
Definition schema (A : Type) : Type := option json → result A.

Definition invalid {A} (expected : string) : result A :=
  Err (ZodError ("Expected " +:+ expected)).

Definition z_string : schema string := λ v,
  match v with
  | Some (JString s) => Ok s
  | _ => invalid "string"
  end.

Definition z_number : schema Z := λ v,
  match v with
  | Some (JNumber n) => Ok n
  | _ => invalid "number"
  end.

Definition z_boolean : schema bool := λ v,
  match v with
  | Some (JBool b) => Ok b
  | _ => invalid "boolean"
  end.

Definition z_any : schema (option json) := λ v, Ok v.

Definition z_optional {A} (s : schema A) : schema (option A) := λ v,
  match v with
  | None => Ok None
  | Some _ => a ← s v; mret (Some a)
  end.

Definition z_union {A B} (a : schema A) (b : schema B) : schema (A + B) := λ v,
  match a v with
  | Ok x => Ok (inl x)
  | Err _ =>
      match b v with
      | Ok y => Ok (inr y)
      | Err _ => invalid "one of the union members"
      end
  end.

Fixpoint z_enum_go {A} (values : list (string * A)) (s : string) : result A :=
  match values with
  | [] => invalid "one of the enum values"
  | (k, a) :: rest => if bool_decide (k = s) then Ok a else z_enum_go rest s
  end.

Definition z_enum {A} (values : list (string * A)) : schema A := λ v,
  match v with
  | Some (JString s) => z_enum_go values s
  | _ => invalid "one of the enum values"
  end.

Definition z_array {A} (s : schema A) : schema (list A) := λ v,
  match v with
  | Some (JArray items) => mapM (λ x, s (Some x)) items
  | _ => invalid "array"
  end.

(** [z.record(z.string(), s)]: every own property must satisfy [s]. *)
Definition z_record {A} (s : schema A) : schema (list (string * A)) := λ v,
  match v with
  | Some (JObject fields) =>
      mapM (λ kv : string * json, a ← s (Some kv.2); mret (kv.1, a)) fields
  | _ => invalid "object"
  end.

(** [z.object({...})]: the value must be an object; the shape reads its
    properties, and properties outside the shape are dropped. *)
Definition z_object {A} (shape : list (string * json) → result A) : schema A := λ v,
  match v with
  | Some (JObject fields) => shape fields
  | _ => invalid "object"
  end.

(** [schema.parse(data)] *)
Definition parse {A} (s : schema A) (data : json) : outcome A :=
  of_result (s (Some data)).

(** [schema.safeParse(data).success] *)
Definition accepts {A} (s : schema A) (data : json) : bool :=
  match s (Some data) with
  | Ok _ => true
  | Err _ => false
  end.

(** ** The schemas *)

Module Cvss.
Record t : Type := { score : Z; vectorString : option string }.
End Cvss.

Module Finding.
Record t : Type := { version : string; paths : list string }.
End Finding.

Module NpmAdvisory.
Record t : Type := {
  id : string + Z;
  title : string;
  name : option string;
  module_name : option string;
  severity : NpmSeverity;
  vulnerable_versions : string;
  patched_versions : option string;
  url : string;
  overview : option string;
  recommendation : option string;
  references : option string;
  access : option string;
  cwe : option (string + list string);
  cves : option (list string);
  cvss : option Cvss.t;
  findings : option (list Finding.t);
  created : option string;
  updated : option string;
  deleted : option bool;
  github_advisory_id : option string
}.
End NpmAdvisory.

Definition NpmAuditRequestSchema : schema (list (string * list string)) :=
  z_record (z_array z_string).

Definition CvssSchema : schema Cvss.t :=
  z_object (λ o,
    score ← z_number (field o "score");
    vectorString ← z_optional z_string (field o "vectorString");
    mret {| Cvss.score := score; Cvss.vectorString := vectorString |}).

Definition FindingSchema : schema Finding.t :=
  z_object (λ o,
    version ← z_string (field o "version");
    paths ← z_array z_string (field o "paths");
    mret {| Finding.version := version; Finding.paths := paths |}).

Definition NpmAdvisorySchema : schema NpmAdvisory.t :=
  z_object (λ o,
    id ← z_union z_string z_number (field o "id");
    title ← z_string (field o "title");
    name ← z_optional z_string (field o "name");
    module_name ← z_optional z_string (field o "module_name");
    severity ← z_enum [("critical", critical); ("high", high);
                       ("moderate", moderate); ("low", low); ("info", info)]
                 (field o "severity");
    vulnerable_versions ← z_string (field o "vulnerable_versions");
    patched_versions ← z_optional z_string (field o "patched_versions");
    url ← z_string (field o "url");
    overview ← z_optional z_string (field o "overview");
    recommendation ← z_optional z_string (field o "recommendation");
    references ← z_optional z_string (field o "references");
    access ← z_optional z_string (field o "access");
    cwe ← z_optional (z_union z_string (z_array z_string)) (field o "cwe");
    cves ← z_optional (z_array z_string) (field o "cves");
    cvss ← z_optional CvssSchema (field o "cvss");
    findings ← z_optional (z_array FindingSchema) (field o "findings");
    created ← z_optional z_string (field o "created");
    updated ← z_optional z_string (field o "updated");
    deleted ← z_optional z_boolean (field o "deleted");
    github_advisory_id ← z_optional z_string (field o "github_advisory_id");
    mret {| NpmAdvisory.id := id;
            NpmAdvisory.title := title;
            NpmAdvisory.name := name;
            NpmAdvisory.module_name := module_name;
            NpmAdvisory.severity := severity;
            NpmAdvisory.vulnerable_versions := vulnerable_versions;
            NpmAdvisory.patched_versions := patched_versions;
            NpmAdvisory.url := url;
            NpmAdvisory.overview := overview;
            NpmAdvisory.recommendation := recommendation;
            NpmAdvisory.references := references;
            NpmAdvisory.access := access;
            NpmAdvisory.cwe := cwe;
            NpmAdvisory.cves := cves;
            NpmAdvisory.cvss := cvss;
            NpmAdvisory.findings := findings;
            NpmAdvisory.created := created;
            NpmAdvisory.updated := updated;
            NpmAdvisory.deleted := deleted;
            NpmAdvisory.github_advisory_id := github_advisory_id |}).

(** Advisory identifier to advisory, in the enumeration order of the body. *)
Abbreviation NpmAuditResponse := (list (string * NpmAdvisory.t)).

Definition NpmAuditResponseSchema : schema NpmAuditResponse :=
  z_record NpmAdvisorySchema.

Module NpmAuditResponseAlt.
Record t : Type := {
  advisories : NpmAuditResponse;
  metadata : option json
}.
End NpmAuditResponseAlt.

Definition NpmAuditResponseAltSchema : schema NpmAuditResponseAlt.t :=
  z_object (λ o,
    advisories ← z_record NpmAdvisorySchema (field o "advisories");
    metadata ← z_optional z_any (field o "metadata");
    mret {| NpmAuditResponseAlt.advisories := advisories;
            NpmAuditResponseAlt.metadata := mjoin metadata |}).

Arguments NpmAdvisorySchema : simpl never.
Arguments NpmAuditResponseSchema : simpl never.
Arguments NpmAuditResponseAltSchema : simpl never.

End Schema.

(* ===================================================================== *)
(** * Bun.semver

    The matcher belongs to the Bun runtime; types.ts declares it and the
    repository holds no code of it. This module is the matcher that section
    4.3 of the specification describes: comparators [<], [<=], [>], [>=], [=]
    on [major.minor.patch] versions with optional pre-release and build
    tags, the wildcard [*], clauses of comparators and ranges of clauses. *)
(* ===================================================================== *)

Module Semver.

Inductive identifier : Type :=
| Numeric (n : N)
| Alphanumeric (s : string).

Record version : Type := {
  major : N;
  minor : N;
  patch : N;
  prerelease : list identifier
}.

Inductive operator : Type := OpLt | OpLe | OpGt | OpGe | OpEq.

Inductive comparator : Type :=
| Any
| Cmp (op : operator) (v : version).

Definition is_digit (c : ascii) : bool :=
  let n := nat_of_ascii c in (48 <=? n)%nat && (n <=? 57)%nat.

Definition is_letter (c : ascii) : bool :=
  let n := nat_of_ascii c in
  ((65 <=? n)%nat && (n <=? 90)%nat) || ((97 <=? n)%nat && (n <=? 122)%nat).

Definition is_identifier_char (c : ascii) : bool :=
  is_digit c || is_letter c || bool_decide (c = "-"%char).

Fixpoint all_chars (p : ascii → bool) (s : string) : bool :=
  match s with
  | EmptyString => true
  | String c s' => p c && all_chars p s'
  end.

Fixpoint digits_value (s : string) (acc : N) : N :=
  match s with
  | EmptyString => acc
  | String c s' => digits_value s' (acc * 10 + (N_of_ascii c - 48))%N
  end.

(** A numeric identifier: digits, without a leading zero. *)
Definition parse_numeric (s : string) : option N :=
  match s with
  | EmptyString => None
  | String c rest =>
      if all_chars is_digit s
         && (negb (bool_decide (c = "0"%char)) || bool_decide (rest = ""))
      then Some (digits_value s 0)
      else None
  end.

Definition parse_identifier (s : string) : option identifier :=
  if bool_decide (s = "") then None
  else if all_chars is_digit s then Numeric <$> parse_numeric s
  else if all_chars is_identifier_char s then Some (Alphanumeric s)
  else None.

Definition parse_build_identifier (s : string) : option unit :=
  if bool_decide (s = "") then None
  else if all_chars is_identifier_char s then Some ()
  else None.

(** The pieces of [s] between the occurrences of [sep]. *)
Fixpoint split (sep : ascii) (s : string) : list string :=
  match s with
  | EmptyString => [""]
  | String c s' =>
      if bool_decide (c = sep) then "" :: split sep s'
      else match split sep s' with
           | [] => [String c ""]
           | w :: ws => String c w :: ws
           end
  end.

(** [s] up to the first [sep], and what follows it if there is one. *)
Fixpoint cut (sep : ascii) (s : string) : string * option string :=
  match s with
  | EmptyString => ("", None)
  | String c s' =>
      if bool_decide (c = sep) then ("", Some s')
      else let (a, b) := cut sep s' in (String c a, b)
  end.

(** [major.minor.patch], then [-prerelease] and [+build], both optional. *)
Definition parse_version (s : string) : option version :=
  let (core_pre, build) := cut "+"%char s in
  let (core, pre) := cut "-"%char core_pre in
  _ ← match build with
      | None => Some []
      | Some b => mapM parse_build_identifier (split "."%char b)
      end;
  pre ← match pre with
        | None => Some []
        | Some p => mapM parse_identifier (split "."%char p)
        end;
  match split "."%char core with
  | [a; b; c] =>
      major ← parse_numeric a;
      minor ← parse_numeric b;
      patch ← parse_numeric c;
      Some {| major := major; minor := minor; patch := patch; prerelease := pre |}
  | _ => None
  end.

Definition then_compare (c : comparison) (next : comparison) : comparison :=
  match c with
  | Eq => next
  | _ => c
  end.

Definition compare_identifier (a b : identifier) : comparison :=
  match a, b with
  | Numeric x, Numeric y => (x ?= y)%N
  | Numeric _, Alphanumeric _ => Lt
  | Alphanumeric _, Numeric _ => Gt
  | Alphanumeric x, Alphanumeric y => String.compare x y
  end.

Fixpoint compare_identifiers (l1 l2 : list identifier) : comparison :=
  match l1, l2 with
  | [], [] => Eq
  | [], _ :: _ => Lt
  | _ :: _, [] => Gt
  | a :: l1', b :: l2' =>
      then_compare (compare_identifier a b) (compare_identifiers l1' l2')
  end.

(** A version with a pre-release tag precedes the same version without. *)
Definition compare_prerelease (l1 l2 : list identifier) : comparison :=
  match l1, l2 with
  | [], [] => Eq
  | [], _ :: _ => Gt
  | _ :: _, [] => Lt
  | _, _ => compare_identifiers l1 l2
  end.

Definition compare_version (v w : version) : comparison :=
  then_compare (major v ?= major w)%N
    (then_compare (minor v ?= minor w)%N
       (then_compare (patch v ?= patch w)%N
          (compare_prerelease (prerelease v) (prerelease w)))).

Definition holds (op : operator) (c : comparison) : bool :=
  match op, c with
  | OpLt, Lt | OpLe, Lt | OpLe, Eq | OpGt, Gt | OpGe, Gt | OpGe, Eq | OpEq, Eq => true
  | _, _ => false
  end.

Definition parse_comparator (token : string) : option comparator :=
  if bool_decide (token = "*") then Some Any
  else match token with
       | String "<"%char (String "="%char v) => Cmp OpLe <$> parse_version v
       | String ">"%char (String "="%char v) => Cmp OpGe <$> parse_version v
       | String "<"%char v => Cmp OpLt <$> parse_version v
       | String ">"%char v => Cmp OpGt <$> parse_version v
       | String "="%char v => Cmp OpEq <$> parse_version v
       | v => Cmp OpEq <$> parse_version v
       end.

(** A clause: one or more comparators separated by white space. *)
Definition parse_clause (s : string) : option (list comparator) :=
  match String.words s with
  | [] => None
  | tokens => mapM parse_comparator tokens
  end.

(** The pieces of [s] between the occurrences of [||]. *)
Fixpoint split_or (s : string) : list string :=
  match s with
  | EmptyString => [""]
  | String c s' =>
      match s' with
      | String c' s'' =>
          if bool_decide (c = "|"%char) && bool_decide (c' = "|"%char)
          then "" :: split_or s''
          else match split_or s' with
               | [] => [String c ""]
               | w :: ws => String c w :: ws
               end
      | EmptyString => [String c ""]
      end
  end.

(** A range: clauses separated by [||]. *)
Definition parse_range (s : string) : option (list (list comparator)) :=
  mapM parse_clause (split_or s).

Definition matches_comparator (v : version) (c : comparator) : bool :=
  match c with
  | Any => true
  | Cmp op w => holds op (compare_version v w)
  end.

(** The comparator names a pre-release of the very [major.minor.patch]
    of [v]. *)
Definition names_prerelease_of (v : version) (c : comparator) : bool :=
  match c with
  | Any => false
  | Cmp _ w =>
      negb (bool_decide (prerelease w = []))
      && bool_decide (major w = major v)
      && bool_decide (minor w = minor v)
      && bool_decide (patch w = patch v)
  end.

Definition matches_clause (v : version) (clause : list comparator) : bool :=
  forallb (matches_comparator v) clause
  && match prerelease v with
     | [] => true
     | _ :: _ => existsb (names_prerelease_of v) clause
     end.

(** Modelled from the spec: [Bun.semver.satisfies], the matcher of the Bun
    runtime, which the repository only declares (types.ts). Section 4.3 of
    the specification: a range is a set of clauses joined by [||], one of
    which must hold; a clause is a set of comparators, all of which must
    hold; a pre-release version only satisfies a clause that names a
    pre-release of the same [major.minor.patch]. A range that does not parse
    is an error, which the caller absorbs. *)
Definition satisfies (version range : string) : result bool :=
  match parse_range range with
  | None => Err (Error ("Invalid range: " +:+ range))
  | Some clauses =>
      match parse_version version with
      | None => Ok false
      | Some v => Ok (existsb (matches_clause v) clauses)
      end
  end.

End Semver.

(* ===================================================================== *)
(** * processor.ts *)
(* ===================================================================== *)

Module Processor.

Import Schema.

(** [String(advisory.id)], which is also how a template literal prints it. *)
Definition String_of_id (id : string + Z) : string :=
  match id with
  | inl s => s
  | inr n => pretty n
  end.

Definition is_sentence_end (c : ascii) : bool :=
  bool_decide (c = "."%char) || bool_decide (c = "!"%char)
  || bool_decide (c = "?"%char).

(** [s.match(/^[^.!?]*[.!?]/)?.[0]]: [s] up to and including its first
    full stop, exclamation mark or question mark. *)
Fixpoint firstSentence (s : string) : option string :=
  match s with
  | EmptyString => None
  | String c s' =>
      if is_sentence_end c then Some (String c "")
      else String c <$> firstSentence s'
  end.

(** [value?.trim()], when it is truthy. *)
Definition trimmed (value : option string) : option string :=
  match value with
  | Some s => if truthy (trim s) then Some (trim s) else None
  | None => None
  end.

Definition getAdvisoryDescription (advisory : NpmAdvisory.t) : option string :=
  match trimmed (NpmAdvisory.overview advisory) with
  | Some overview =>
      if (String.length overview <=? MAX_DESCRIPTION_LENGTH SECURITY)%nat
      then Some overview
      else
        match firstSentence overview with
        | Some sentence =>
            if (String.length sentence <=? MAX_DESCRIPTION_LENGTH SECURITY)%nat
            then Some sentence
            else Some (JS.substring overview 0 (MAX_DESCRIPTION_LENGTH SECURITY - 3)
                         +:+ "...")
        | None =>
            Some (JS.substring overview 0 (MAX_DESCRIPTION_LENGTH SECURITY - 3)
                    +:+ "...")
        end
  | None =>
      match trimmed (NpmAdvisory.recommendation advisory) with
      | Some recommendation =>
          if (String.length recommendation <=? MAX_DESCRIPTION_LENGTH SECURITY)%nat
          then Some recommendation
          else Some (JS.substring recommendation 0 (MAX_DESCRIPTION_LENGTH SECURITY - 3)
                       +:+ "...")
      | None => None
      end
  end.

Definition createBunAdvisory (advisory : NpmAdvisory.t) (pkg : Package.t)
  : Advisory.t :=
  let level := Severity.mapSeverityToLevel (NpmAdvisory.severity advisory) in
  let description := getAdvisoryDescription advisory in
  let message :=
    if truthy (NpmAdvisory.title advisory) then NpmAdvisory.title advisory
    else "Security advisory " +:+ String_of_id (NpmAdvisory.id advisory) in
  {| Advisory.id := String_of_id (NpmAdvisory.id advisory);
     Advisory.message := message;
     Advisory.level := level;
     Advisory.package := Package.name pkg;
     Advisory.url := NpmAdvisory.url advisory;
     Advisory.description := description |}.

(** The key under which an advisory and a package are remembered. *)
Definition pairKey (advisory : NpmAdvisory.t) (pkg : Package.t) : string :=
  String_of_id (NpmAdvisory.id advisory) +:+ ":" +:+ Package.name pkg
  +:+ "@" +:+ Package.version pkg.

Section WithSemver.

(** [Bun.semver.satisfies] *)
Variable satisfies : string → string → result bool.

Definition isVersionAffected (version vulnerableVersions : string)
  : outcome bool :=
  try_catch_pure
    (of_result (satisfies version vulnerableVersions))
    (λ _, Returns false).

(** The [for (const pkg of packages)] loop of [processAdvisory]; the set
    [processedPairs] is shared with the caller, so it is handed back. *)
Fixpoint processAdvisory_loop (advisory : NpmAdvisory.t)
    (advisoryPackageName : string) (packages : list Package.t)
    (bunAdvisories : list Advisory.t) (processedPairs : gset string)
  : outcome (list Advisory.t * gset string) :=
  match packages with
  | [] => mret (bunAdvisories, processedPairs)
  | pkg :: rest =>
      if negb (bool_decide (Package.name pkg = advisoryPackageName)) then
        processAdvisory_loop advisory advisoryPackageName rest
          bunAdvisories processedPairs
      else if bool_decide (pairKey advisory pkg ∈ processedPairs) then
        processAdvisory_loop advisory advisoryPackageName rest
          bunAdvisories processedPairs
      else
        affected ← isVersionAffected (Package.version pkg)
                      (NpmAdvisory.vulnerable_versions advisory);
        if affected : bool then
          processAdvisory_loop advisory advisoryPackageName rest
            (bunAdvisories ++ [createBunAdvisory advisory pkg])
            (processedPairs ∪ {[pairKey advisory pkg]})
        else
          processAdvisory_loop advisory advisoryPackageName rest
            bunAdvisories processedPairs
  end.

Definition processAdvisory (advisory : NpmAdvisory.t)
    (packages : list Package.t) (processedPairs : gset string)
  : outcome (list Advisory.t * gset string) :=
  match or_else (NpmAdvisory.name advisory) (NpmAdvisory.module_name advisory) with
  | Some advisoryPackageName =>
      if truthy advisoryPackageName then
        processAdvisory_loop advisory advisoryPackageName packages [] processedPairs
      else mret ([], processedPairs)
  | None => mret ([], processedPairs)
  end.

(** The [for (const advisory of advisories)] loop of [processAdvisories]. *)
Fixpoint processAdvisories_loop (advisories : list NpmAdvisory.t)
    (packages : list Package.t)
    (bunAdvisories : list Advisory.t) (processedPairs : gset string)
  : outcome (list Advisory.t) :=
  match advisories with
  | [] => mret bunAdvisories
  | advisory :: rest =>
      r ← processAdvisory advisory packages processedPairs;
      processAdvisories_loop rest packages (bunAdvisories ++ r.1) r.2
  end.

Definition processAdvisories (advisories : list NpmAdvisory.t)
    (packages : list Package.t) : outcome (list Advisory.t) :=
  if bool_decide (length advisories = 0) || bool_decide (length packages = 0)
  then mret []
  else processAdvisories_loop advisories packages [] ∅.

End WithSemver.

End Processor.

(* ===================================================================== *)
(** * client.ts *)
(* ===================================================================== *)

Module Client.

Import Schema.

(** The key of the [Map] in [deduplicatePackages]. *)
Definition packageKey (pkg : Package.t) : string :=
  Package.name pkg +:+ "@" +:+ Package.version pkg.

(** The [for (const pkg of packages)] loop of [deduplicatePackages];
    [packageMap] lists the entries of the [Map] in insertion order. *)
Fixpoint deduplicatePackages_loop (packages : list Package.t)
    (packageMap : list (string * Package.t)) : list (string * Package.t) :=
  match packages with
  | [] => packageMap
  | pkg :: rest =>
      if negb (bool_decide (packageKey pkg ∈ packageMap.*1))
      then deduplicatePackages_loop rest (packageMap ++ [(packageKey pkg, pkg)])
      else deduplicatePackages_loop rest packageMap
  end.

Definition deduplicatePackages (packages : list Package.t) : list Package.t :=
  (deduplicatePackages_loop packages []).*2.

(** The [for (const pkg of packages)] loop of [buildRequestPayload].
    [payload] starts as [{}], so [payload[pkg.name]] also finds what
    [Object.prototype] holds: such a value is truthy, is not replaced by
    [[]], and has no [includes] to call. *)
Fixpoint buildRequestPayload_loop (packages : list Package.t)
    (payload : NpmAuditRequest) : outcome NpmAuditRequest :=
  match packages with
  | [] => mret payload
  | pkg :: rest =>
      let payload :=
        match JS.get payload (Package.name pkg) with
        | Undefined => <[Package.name pkg := []]> payload
        | _ => payload
        end in
      match JS.get payload (Package.name pkg) with
      | Own versions =>
          if negb (includes versions (Package.version pkg))
          then buildRequestPayload_loop rest
                 (<[Package.name pkg := versions ++ [Package.version pkg]]> payload)
          else buildRequestPayload_loop rest payload
      | Inherited => Throws (TypeError "versions.includes is not a function")
      | Undefined => buildRequestPayload_loop rest payload
      end
  end.

Definition buildRequestPayload (packages : list Package.t)
  : outcome NpmAuditRequest :=
  buildRequestPayload_loop packages ∅.

(** [Object.values] of a validated response *)
Definition Object_values (advisories : NpmAuditResponse) : list NpmAdvisory.t :=
  advisories.*2.

Section WithRegistry.

Variable api : NPM_AUDIT_API_t.

(** The registry: the decoded body it answers a bulk request with, given
    the requests it has seen before, or the error the request ends in once
    [withRetry] gives up (or [response.json()] fails). *)
Variable respond : sent → NpmAuditRequest → result json.

(** [withRetry(fetch ...)] followed by [response.json()] *)
Definition fetch_json (payload : NpmAuditRequest) : M json := λ w,
  (of_result (respond w payload), w ++ [payload]).

Definition executeBulkQuery (payload : NpmAuditRequest)
  : M (list NpmAdvisory.t) :=
  data ← fetch_json payload;
  advisories ← try_catch
    (lift (parse NpmAuditResponseSchema data))
    (λ _, altData ← lift (parse NpmAuditResponseAltSchema data);
          mret (NpmAuditResponseAlt.advisories altData));
  mret (Object_values advisories).

(** The [for (let i = 0; i < packages.length; i += batchSize)] loop of
    [queryInBatches]; every iteration uses one unit of [fuel]. *)
Fixpoint queryInBatches_loop (fuel : nat) (packages : list Package.t)
    (i : nat) (advisories : list NpmAdvisory.t) : M (list NpmAdvisory.t) :=
  let batchSize := MAX_PACKAGES_PER_REQUEST api in
  if bool_decide (i < length packages) then
    match fuel with
    | 0 => diverge
    | S fuel' =>
        let batch := slice packages i (i + batchSize) in
        payload ← lift (buildRequestPayload batch);
        advisories ← try_catch
          (batchAdvisories ← executeBulkQuery payload;
           mret (advisories ++ batchAdvisories))
          (λ _, mret advisories);
        queryInBatches_loop fuel' packages (i + batchSize) advisories
    end
  else mret advisories.

Definition queryInBatches (packages : list Package.t)
  : M (list NpmAdvisory.t) :=
  queryInBatches_loop (length packages) packages 0 [].

Definition queryVulnerabilities (packages : list Package.t)
  : M (list NpmAdvisory.t) :=
  if bool_decide (length packages = 0) then mret []
  else
    let uniquePackages := deduplicatePackages packages in
    requestPayload ← lift (buildRequestPayload uniquePackages);
    if bool_decide (MAX_PACKAGES_PER_REQUEST api < length uniquePackages)
    then queryInBatches uniquePackages
    else executeBulkQuery requestPayload.

End WithRegistry.

End Client.

(* ===================================================================== *)
(** * index.ts *)
(* ===================================================================== *)

Module Scanner.

Section WithWorld.

Variable satisfies : string → string → result bool.
Variable respond : sent → NpmAuditRequest → result Schema.json.

(** [scanner.scan]; the client reads the constants of [constants.ts]. *)
Definition scan (packages : list Package.t) : M (list Advisory.t) :=
  try_catch
    (advisories ← Client.queryVulnerabilities NPM_AUDIT_API respond packages;
     bunAdvisories ← lift (Processor.processAdvisories satisfies advisories packages);
     mret bunAdvisories)
    (λ _, mret []).

End WithWorld.

End Scanner.

(* ===================================================================== *)
(** * Vocabulary of the specification *)
(* ===================================================================== *)

Import Schema.

(** ** Fixtures of the repository's tests (tests/processor.test.ts) *)

Module Fixtures.

Definition package (name version requestedRange : string) : Package.t :=
  {| Package.name := name;
     Package.version := version;
     Package.requestedRange := requestedRange;
     Package.tarball :=
       "https://registry.npmjs.org/" +:+ name +:+ "/-/" +:+ name +:+ "-"
       +:+ version +:+ ".tgz" |}.

Definition advisory (id : string + Z) (title : string) (name : option string)
    (severity : NpmSeverity) (vulnerable_versions url : string)
    (overview : option string) : NpmAdvisory.t :=
  {| NpmAdvisory.id := id;
     NpmAdvisory.title := title;
     NpmAdvisory.name := name;
     NpmAdvisory.module_name := None;
     NpmAdvisory.severity := severity;
     NpmAdvisory.vulnerable_versions := vulnerable_versions;
     NpmAdvisory.patched_versions := None;
     NpmAdvisory.url := url;
     NpmAdvisory.overview := overview;
     NpmAdvisory.recommendation := None;
     NpmAdvisory.references := None;
     NpmAdvisory.access := None;
     NpmAdvisory.cwe := None;
     NpmAdvisory.cves := None;
     NpmAdvisory.cvss := None;
     NpmAdvisory.findings := None;
     NpmAdvisory.created := None;
     NpmAdvisory.updated := None;
     NpmAdvisory.deleted := None;
     NpmAdvisory.github_advisory_id := None |}.

(** "prevents duplicate advisories for same package" *)
Definition wildcard_advisory : NpmAdvisory.t :=
  advisory (inr 1%Z) "Test" (Some "lodash") high "*" "https://example.com" None.

(** "creates separate advisories for different versions" *)
Definition range_advisory : NpmAdvisory.t :=
  advisory (inr 1%Z) "Test" (Some "lodash") high "<4.17.21" "https://example.com" None.

(** "validates minimal advisory" (tests/schema.test.ts) *)
Definition minimal_advisory_body (severity : list (string * json)) : json :=
  JObject
    ([("id", JNumber 1065); ("title", JString "Prototype Pollution")]
     ++ severity
     ++ [("vulnerable_versions", JString "<4.17.21");
         ("url", JString "https://github.com/advisories/GHSA-xxxx")]).

End Fixtures.

(** ** A registry that knows one advisory, for every version of lodash *)

Module Registry.

Definition lodash_advisory : NpmAdvisory.t :=
  Fixtures.advisory (inr 1065%Z) "Prototype Pollution in lodash" (Some "lodash")
    high "<4.17.21" "https://github.com/advisories/GHSA-p6mc-m468-83gw" None.

Definition lodash_body : json :=
  JObject
    [("1065",
      JObject
        [("id", JNumber 1065);
         ("title", JString "Prototype Pollution in lodash");
         ("name", JString "lodash");
         ("severity", JString "high");
         ("vulnerable_versions", JString "<4.17.21");
         ("url", JString "https://github.com/advisories/GHSA-p6mc-m468-83gw")])].

Definition respond : sent → NpmAuditRequest → result json := λ _ payload,
  match payload !! "lodash" with
  | Some (_ :: _) => Ok lodash_body
  | _ => Ok (JObject [])
  end.

(** The advisories the registry holds for a package at a version. *)
Definition advisories_of (name version : string) : list NpmAdvisory.t :=
  if bool_decide (name = "lodash") then [lodash_advisory] else [].

(** The same registry, failing on every request that asks about more
    than one version of lodash. *)
Definition flaky : sent → NpmAuditRequest → result json := λ w payload,
  match payload !! "lodash" with
  | Some (_ :: _ :: _) => Err (Error "npm registry returned 503: Service Unavailable")
  | _ => respond w payload
  end.

(** A registry that is down. *)
Definition unreachable : sent → NpmAuditRequest → result json :=
  λ _ _, Err (Error "npm registry returned 503: Service Unavailable").

(** A configuration with small batches. *)
Definition small_batches : NPM_AUDIT_API_t :=
  {| MAX_RETRY_ATTEMPTS := 2; MAX_PACKAGES_PER_REQUEST := 2 |}.

(** lodash at [n] versions: ["0"], ["1"], ... *)
Definition lodash_versions (n : nat) : list Package.t :=
  (λ i : nat, Fixtures.package "lodash" (pretty i) "*") <$> seq 0 n.

End Registry.

(** ** A runtime that does not throw *)

Module Runtime.


End Runtime.

(** ** Versions *)

(** A version string that parses and carries no pre-release tag. *)
Definition release_version (version : string) : Prop :=
  ∃ v, Semver.parse_version version = Some v ∧ Semver.prerelease v = [].

(** ** Matches and records *)

(** The package an advisory is about: [advisory.name || advisory.module_name],
    when that is a non-empty string. *)
Definition subject (advisory : NpmAdvisory.t) : option string :=
  match or_else (NpmAdvisory.name advisory) (NpmAdvisory.module_name advisory) with
  | Some n => if truthy n then Some n else None
  | None => None
  end.

(** An advisory together with a package it was matched against. *)
Abbreviation match_ := (NpmAdvisory.t * Package.t)%type.

Definition record_of (m : match_) : Advisory.t :=
  Processor.createBunAdvisory m.1 m.2.

Definition key_of (m : match_) : string := Processor.pairKey m.1 m.2.

(** The triple a matched record stands for. *)
Definition triple_of (m : match_) : string * string * string :=
  (Processor.String_of_id (NpmAdvisory.id m.1), Package.name m.2, Package.version m.2).

(** What [processedPairs] guarantees about the matches made so far. *)
Definition remembered (seen : list match_) (processedPairs : gset string) : Prop :=
  NoDup (key_of <$> seen) ∧ ∀ m, m ∈ seen → key_of m ∈ processedPairs.

(** The matcher's verdict as the processor reads it. *)
Definition affected (satisfies : string → string → result bool)
    (version range : string) : bool :=
  match satisfies version range with
  | Ok b => b
  | Err _ => false
  end.

(** A match the processor may report for [advisories] and [packages]. *)
Definition reportable (satisfies : string → string → result bool)
    (advisories : list NpmAdvisory.t) (packages : list Package.t)
    (m : match_) : Prop :=
  m.1 ∈ advisories ∧ m.2 ∈ packages
  ∧ subject m.1 = Some (Package.name m.2)
  ∧ affected satisfies (Package.version m.2)
      (NpmAdvisory.vulnerable_versions m.1) = true.

(** The matches one run of the package loop may add for [advisory], whose
    subject is [n]. *)
Definition found_in (satisfies : string → string → result bool)
    (advisory : NpmAdvisory.t) (n : string) (packages : list Package.t)
    (m : match_) : Prop :=
  m.1 = advisory ∧ m.2 ∈ packages ∧ Package.name m.2 = n
  ∧ affected satisfies (Package.version m.2)
      (NpmAdvisory.vulnerable_versions m.1) = true.

(** ** Descriptions *)

(** A description the host can show: absent, or within the limit. *)
Definition within_limit (description : option string) : Prop :=
  match description with
  | None => True
  | Some d => String.length d ≤ MAX_DESCRIPTION_LENGTH SECURITY
  end.

(** The text a description is made from: the trimmed overview, or else
    the trimmed recommendation. *)
Definition source_text (advisory : NpmAdvisory.t) : option string :=
  match Processor.trimmed (NpmAdvisory.overview advisory) with
  | Some overview => Some overview
  | None => Processor.trimmed (NpmAdvisory.recommendation advisory)
  end.

(** How a description was obtained. *)
Inductive description_path (advisory : NpmAdvisory.t) : option string → Prop :=
| verbatim (text : string) :
    source_text advisory = Some text →
    String.length text ≤ MAX_DESCRIPTION_LENGTH SECURITY →
    description_path advisory (Some text)
| first_sentence (overview sentence : string) :
    Processor.trimmed (NpmAdvisory.overview advisory) = Some overview →
    MAX_DESCRIPTION_LENGTH SECURITY < String.length overview →
    Processor.firstSentence overview = Some sentence →
    String.length sentence ≤ MAX_DESCRIPTION_LENGTH SECURITY →
    description_path advisory (Some sentence)
| hard_truncation (text : string) :
    source_text advisory = Some text →
    MAX_DESCRIPTION_LENGTH SECURITY < String.length text →
    String.length (JS.substring text 0 (MAX_DESCRIPTION_LENGTH SECURITY - 3)) = 197 →
    description_path advisory
      (Some (JS.substring text 0 (MAX_DESCRIPTION_LENGTH SECURITY - 3) +:+ "..."))
| no_description :
    source_text advisory = None →
    description_path advisory None.

(** ** Requests *)

(** [payload] asks the registry about [name] at [version]. *)
Definition requests (payload : NpmAuditRequest) (name version : string) : Prop :=
  ∃ versions, payload !! name = Some versions ∧ version ∈ versions.

(** No version is listed twice under a name. *)
Definition distinct_versions (payload : NpmAuditRequest) : Prop :=
  ∀ name versions, payload !! name = Some versions → NoDup versions.

(** The name is not one that an empty object literal already answers to. *)
Definition plain_name (pkg : Package.t) : Prop :=
  Package.name pkg ∉ Object_prototype.

#[global] Instance plain_name_dec pkg : Decision (plain_name pkg).
Proof. unfold plain_name. apply _. Defined.

Fixpoint has_char (c : ascii) (s : string) : bool :=
  match s with
  | EmptyString => false
  | String c' s' => bool_decide (c' = c) || has_char c s'
  end.

(** A package the registry protocol can name: its name is not a member of
    [Object.prototype], and its version holds no [@]. *)
Definition well_formed (pkg : Package.t) : Prop :=
  plain_name pkg ∧ has_char "@" (Package.version pkg) = false.

#[global] Instance well_formed_dec pkg : Decision (well_formed pkg).
Proof. unfold well_formed. apply _. Defined.

(** ** Batches *)

(** The number of batches of at most [k] that [n] packages make. *)
Definition ceil_div (n k : nat) : nat := (n + k - 1) / k.

(** The consecutive batches of at most [k] elements of [l]. *)
Definition batches {A} (k : nat) (l : list A) : list (list A) :=
  (λ j, slice l (j * k) (j * k + k)) <$> seq 0 (ceil_div (length l) k).

(** What a computation adds to a result: what it returned, or nothing
    when it failed. *)
Definition surviving {A} (o : outcome (list A)) : list A :=
  match o with
  | Returns l => l
  | _ => []
  end.

(** The outcomes of the bulk queries for [payloads], sent one after the
    other, each after the ones before it. *)
Fixpoint batch_outcomes (respond : sent → NpmAuditRequest → result json)
    (payloads : list NpmAuditRequest) (w : sent)
  : list (outcome (list NpmAdvisory.t)) :=
  match payloads with
  | [] => []
  | payload :: rest =>
      (Client.executeBulkQuery respond payload w).1
      :: batch_outcomes respond rest (w ++ [payload])
  end.

(** One bulk query for all of [packages]. *)
Definition unbatched_query (respond : sent → NpmAuditRequest → result json)
    (packages : list Package.t) : M (list NpmAdvisory.t) :=
  payload ← lift (Client.buildRequestPayload packages);
  Client.executeBulkQuery respond payload.

(** [payload] asks about a package for which [db] holds [advisory]. *)
Definition answers (db : string → string → list NpmAdvisory.t)
    (payload : NpmAuditRequest) (advisory : NpmAdvisory.t) : Prop :=
  ∃ name version, requests payload name version ∧ advisory ∈ db name version.

(** The registry answers every request with exactly the advisories that
    [db] holds for the packages asked about. *)
Definition serves (respond : sent → NpmAuditRequest → result json)
    (db : string → string → list NpmAdvisory.t) : Prop :=
  ∀ w payload, ∃ advisories,
    (Client.executeBulkQuery respond payload w).1 = Returns advisories
    ∧ ∀ advisory, advisory ∈ advisories ↔ answers db payload advisory.

(** ** Validation and the scan *)

(** What a bulk query does with the body it receives. *)
Definition validated (data : json) : outcome (list NpmAdvisory.t) :=
  match NpmAuditResponseSchema (Some data) with
  | Ok advisories => Returns (Client.Object_values advisories)
  | Err _ =>
      match NpmAuditResponseAltSchema (Some data) with
      | Ok altData =>
          Returns (Client.Object_values (NpmAuditResponseAlt.advisories altData))
      | Err e => Throws e
      end
  end.

(** What [scan] answers, given how the query ended. *)
Definition answer (satisfies : string → string → result bool)
    (query : outcome (list NpmAdvisory.t)) (packages : list Package.t)
  : list Advisory.t :=
  match query with
  | Returns advisories =>
      surviving (Processor.processAdvisories satisfies advisories packages)
  | _ => []
  end.

(** ** What the remaining functions are measured against *)

(** [processedPairs] already holds the key of everything that
    [advisories] can report about [packages]. *)
Definition saturated (satisfies : string → string → result bool)
    (advisories : list NpmAdvisory.t) (packages : list Package.t)
    (processedPairs : gset string) : Prop :=
  ∀ m, reportable satisfies advisories packages m → key_of m ∈ processedPairs.

(** No name of the payload is left without a version. *)
Definition versions_present (payload : NpmAuditRequest) : Prop :=
  ∀ name, payload !! name ≠ Some [].

(** ** Texts the host shows *)

Definition starts_with_white_space (s : string) : bool :=
  match s with
  | EmptyString => false
  | String c _ => is_white_space c
  end.

Fixpoint ends_with_white_space (s : string) : bool :=
  match s with
  | EmptyString => false
  | String c EmptyString => is_white_space c
  | String _ s' => ends_with_white_space s'
  end.

(** A text that is not empty and has no white space around it. *)
Definition tidy (s : string) : Prop :=
  s ≠ "" ∧ starts_with_white_space s = false ∧ ends_with_white_space s = false.

(** ** Configuration values *)

(** The [typeof] of a configuration value. *)
Inductive kind : Type := a_string | a_number | a_boolean | another.

Definition kind_of {number} (value : setting number) : kind :=
  match value with
  | Str _ => a_string
  | Num _ => a_number
  | Bool _ => a_boolean
  | Other => another
  end.

(** The pairs of an advisory and a package that the processor may report:
    the advisory names the package, and the package's version is affected. *)
Definition candidates (satisfies : string → string → result bool)
    (advisories : list NpmAdvisory.t) (packages : list Package.t) : list match_ :=
  filter
    (λ m : match_,
       subject m.1 = Some (Package.name m.2)
       ∧ affected satisfies (Package.version m.2)
           (NpmAdvisory.vulnerable_versions m.1) = true)
    (cprod advisories packages).

(* ===================================================================== *)
(** * Properties *)
(* ===================================================================== *)

(** ** Severity classification *)

(** C3. [mapSeverityToLevel] is a function on the five severities: it
    yields [fatal] exactly for [critical] and [high], and [warn] for
    [moderate], [low] and [info]. *)
Theorem C3_mapSeverityToLevel_total (severity : NpmSeverity) :
  (Severity.mapSeverityToLevel severity = fatal
     ↔ severity = critical ∨ severity = high)
  ∧ (Severity.mapSeverityToLevel severity = warn
     ↔ severity = moderate ∨ severity = low ∨ severity = info).
Proof.
  destruct severity; vm_compute; split; split;
    solve [ intros; auto | intros H; discriminate H
          | intros H; repeat destruct H as [H|H]; discriminate H ].
Qed.

(** ** The version matcher *)

Lemma isVersionAffected_returns
    (satisfies : string → string → result bool) (version range : string) :
  Processor.isVersionAffected satisfies version range
  = Returns (affected satisfies version range).
Proof.
  unfold Processor.isVersionAffected, affected.
  destruct (satisfies version range); reflexivity.
Qed.



(** With the matcher of the specification, a range that does not parse is
    never a match. *)
Lemma isVersionAffected_unparsable_range version range :
  Semver.parse_range range = None →
  Processor.isVersionAffected Semver.satisfies version range = Returns false.
Proof.
  intros Hrange. rewrite isVersionAffected_returns.
  unfold affected, Semver.satisfies. rewrite Hrange. reflexivity.
Qed.

(** "handles invalid version range gracefully" *)
Example isVersionAffected_invalid_range :
  Processor.isVersionAffected Semver.satisfies "1.0.0" "invalid-range"
  = Returns false.
Proof. apply isVersionAffected_unparsable_range. reflexivity. Qed.

(** C5, as amended. Matching on the concrete cases of the specification,
    and [*] matches every valid version that has no pre-release tag. *)
Theorem C5_isVersionAffected_cases :
  Processor.isVersionAffected Semver.satisfies "4.17.19" "<4.17.20" = Returns true
  ∧ Processor.isVersionAffected Semver.satisfies "4.17.21" "<4.17.20" = Returns false
  ∧ Processor.isVersionAffected Semver.satisfies "3.3.6" "=3.3.6" = Returns true
  ∧ (∀ version, release_version version →
       Processor.isVersionAffected Semver.satisfies version "*" = Returns true).
Proof.
  repeat split; try reflexivity.
  intros version (v & Hv & Hrelease).
  rewrite isVersionAffected_returns. unfold affected, Semver.satisfies.
  change (Semver.parse_range "*") with (Some [[Semver.Any]]).
  rewrite Hv. cbn. unfold Semver.matches_clause. rewrite Hrelease. reflexivity.
Qed.

Lemma C5_isVersionAffected_cases_witness :
  Processor.isVersionAffected Semver.satisfies "1.0.0" "*" = Returns true.
Proof.
  apply (proj2 (proj2 (proj2 C5_isVersionAffected_cases)) "1.0.0").
  eexists. split; reflexivity.
Defined.

(** C5, as stated, fails on a pre-release version: ["1.0.0-beta.1"] is a
    valid version, and [*] names no pre-release of [1.0.0]. *)
Lemma C5_wildcard_prerelease_counterexample :
  Semver.parse_version "1.0.0-beta.1"
  = Some {| Semver.major := 1; Semver.minor := 0; Semver.patch := 0;
            Semver.prerelease := [Semver.Alphanumeric "beta"; Semver.Numeric 1] |}
  ∧ Processor.isVersionAffected Semver.satisfies "1.0.0-beta.1" "*" = Returns false.
Proof. split; reflexivity. Qed.

(** ** The advisory processor *)

Section ProcessorFacts.

Variable satisfies : string → string → result bool.

Lemma remembered_snoc seen processedPairs m :
  remembered seen processedPairs →
  key_of m ∉ processedPairs →
  remembered (seen ++ [m]) (processedPairs ∪ {[key_of m]}).
Proof.
  intros [Hnodup Hin] Hfresh. split.
  - rewrite fmap_app. apply NoDup_app. split; [done|]. split.
    + intros k Hk ->%list_elem_of_singleton.
      apply list_elem_of_fmap in Hk as (m' & Hkey & Hm').
      apply Hfresh. rewrite Hkey. by apply Hin.
    + apply NoDup_singleton.
  - intros m' [Hm'| ->%list_elem_of_singleton]%elem_of_app.
    + apply elem_of_union_l. by apply Hin.
    + apply elem_of_union_r. by apply elem_of_singleton.
Qed.

Lemma found_in_further advisory n pkg rest (new : list match_) :
  Forall (found_in satisfies advisory n rest) new →
  Forall (found_in satisfies advisory n (pkg :: rest)) new.
Proof.
  intros Hnew. eapply Forall_impl; [exact Hnew|]. intros m (? & ? & ? & ?).
  repeat split; auto. by apply list_elem_of_further.
Qed.

Lemma processAdvisory_loop_spec advisory n packages :
  ∀ bunAdvisories processedPairs seen,
    remembered seen processedPairs →
    ∃ new processedPairs',
      Processor.processAdvisory_loop satisfies advisory n packages
        bunAdvisories processedPairs
      = Returns (bunAdvisories ++ (record_of <$> new), processedPairs')
      ∧ remembered (seen ++ new) processedPairs'
      ∧ Forall (found_in satisfies advisory n packages) new.
Proof.
  induction packages as [|pkg rest IH]; intros acc processed seen Hseen.
  - exists [], processed. cbn. rewrite !app_nil_r. done.
  - cbn [Processor.processAdvisory_loop].
    case_bool_decide as Hname; cbn [negb].
    2:{ destruct (IH acc processed seen Hseen) as (new & p' & -> & ? & ?).
        exists new, p'. auto using found_in_further. }
    case_bool_decide as Hkey.
    { destruct (IH acc processed seen Hseen) as (new & p' & -> & ? & ?).
      exists new, p'. auto using found_in_further. }
    rewrite isVersionAffected_returns.
    destruct (affected satisfies _ _) eqn:Haffected; cbn.
    + pose proof (remembered_snoc seen processed (advisory, pkg) Hseen Hkey) as Hseen'.
      destruct (IH (acc ++ [Processor.createBunAdvisory advisory pkg])
                  (processed ∪ {[Processor.pairKey advisory pkg]})
                  (seen ++ [(advisory, pkg)]) Hseen')
        as (new & p' & -> & Hrem & Hnew).
      exists ((advisory, pkg) :: new), p'. split; [|split].
      * rewrite <- app_assoc. reflexivity.
      * by rewrite <- app_assoc in Hrem.
      * constructor; [|by apply found_in_further].
        repeat split; auto. apply list_elem_of_here.
    + destruct (IH acc processed seen Hseen) as (new & p' & -> & ? & ?).
      exists new, p'. auto using found_in_further.
Qed.

Lemma processAdvisory_spec advisory packages processedPairs seen :
  remembered seen processedPairs →
  ∃ new processedPairs',
    Processor.processAdvisory satisfies advisory packages processedPairs
    = Returns (record_of <$> new, processedPairs')
    ∧ remembered (seen ++ new) processedPairs'
    ∧ Forall (reportable satisfies [advisory] packages) new.
Proof.
  intros Hseen. unfold Processor.processAdvisory.
  destruct (or_else _ _) as [n|] eqn:Hor.
  2:{ exists [], processedPairs. rewrite app_nil_r. done. }
  destruct (truthy n) eqn:Htruthy.
  2:{ exists [], processedPairs. rewrite app_nil_r. done. }
  destruct (processAdvisory_loop_spec advisory n packages [] processedPairs seen Hseen)
    as (new & p' & -> & Hrem & Hnew).
  exists new, p'. repeat split; try apply Hrem.
  eapply Forall_impl; [exact Hnew|].
  intros m (Hm & Hin & Hn & Haff). repeat split; auto.
  - rewrite Hm. apply list_elem_of_here.
  - unfold subject. rewrite Hm, Hor, Htruthy, Hn. reflexivity.
Qed.

Lemma processAdvisories_loop_spec advisories packages :
  ∀ bunAdvisories processedPairs seen,
    remembered seen processedPairs →
    ∃ new,
      Processor.processAdvisories_loop satisfies advisories packages
        bunAdvisories processedPairs
      = Returns (bunAdvisories ++ (record_of <$> new))
      ∧ NoDup (key_of <$> (seen ++ new))
      ∧ Forall (reportable satisfies advisories packages) new.
Proof.
  induction advisories as [|advisory rest IH]; intros acc processed seen Hseen.
  - exists []. cbn. rewrite !app_nil_r. repeat split; auto. apply Hseen.
  - cbn [Processor.processAdvisories_loop].
    destruct (processAdvisory_spec advisory packages processed seen Hseen)
      as (new & p' & -> & Hrem & Hnew). cbn.
    destruct (IH (acc ++ (record_of <$> new)) p' (seen ++ new) Hrem)
      as (new' & -> & Hnodup & Hnew').
    exists (new ++ new'). split; [|split].
    + rewrite fmap_app, app_assoc. reflexivity.
    + by rewrite app_assoc.
    + apply Forall_app. split.
      * eapply Forall_impl; [exact Hnew|].
        intros m (Hm & ? & ? & ?). repeat split; auto.
        apply list_elem_of_singleton in Hm as ->. apply list_elem_of_here.
      * eapply Forall_impl; [exact Hnew'|].
        intros m (Hm & ? & ? & ?). repeat split; auto.
        by apply list_elem_of_further.
Qed.

(** The processor returns, and every record it returns stands for a
    reportable match; no two of them share a key. *)
Lemma processAdvisories_spec advisories packages :
  ∃ matches,
    Processor.processAdvisories satisfies advisories packages
    = Returns (record_of <$> matches)
    ∧ NoDup (key_of <$> matches)
    ∧ Forall (reportable satisfies advisories packages) matches.
Proof.
  unfold Processor.processAdvisories.
  destruct (bool_decide (length advisories = 0) || bool_decide (length packages = 0)).
  - exists []. repeat split; auto. apply NoDup_nil_2.
  - destruct (processAdvisories_loop_spec advisories packages [] ∅ [])
      as (new & -> & Hnodup & Hnew).
    + split; [apply NoDup_nil_2|]. intros m []%elem_of_nil.
    + exists new. auto.
Qed.

End ProcessorFacts.

Lemma key_of_triple (m : match_) :
  key_of m
  = (λ t : string * string * string, t.1.1 +:+ ":" +:+ t.1.2 +:+ "@" +:+ t.2)
      (triple_of m).
Proof. reflexivity. Qed.

Lemma NoDup_key_triple (matches : list match_) :
  NoDup (key_of <$> matches) → NoDup (triple_of <$> matches).
Proof.
  intros Hkeys.
  apply (NoDup_fmap_1
           (λ t : string * string * string, t.1.1 +:+ ":" +:+ t.1.2 +:+ "@" +:+ t.2)).
  rewrite <- list_fmap_compose.
  erewrite list_fmap_ext; [exact Hkeys|].
  intros i m _. apply key_of_triple.
Qed.

Lemma pairKey_same_package advisory (p1 p2 : Package.t) :
  Package.name p2 = Package.name p1 →
  Package.version p2 = Package.version p1 →
  Processor.pairKey advisory p2 = Processor.pairKey advisory p1.
Proof. unfold Processor.pairKey. by intros -> ->. Qed.

Lemma pairKey_other_version advisory (p1 p2 : Package.t) :
  Package.name p2 = Package.name p1 →
  Package.version p2 ≠ Package.version p1 →
  Processor.pairKey advisory p2 ≠ Processor.pairKey advisory p1.
Proof.
  unfold Processor.pairKey. intros -> Hversion Hkey. apply Hversion.
  repeat (apply String.app_inj in Hkey). exact Hkey.
Qed.

Lemma subject_Some advisory n :
  subject advisory = Some n →
  or_else (NpmAdvisory.name advisory) (NpmAdvisory.module_name advisory) = Some n
  ∧ truthy n = true.
Proof.
  unfold subject. destruct (or_else _ _) as [n'|]; [|done].
  destruct (truthy n') eqn:Hn'; [|done]. by intros [= <-].
Qed.

Section Deduplication.

Variable satisfies : string → string → result bool.

Lemma processAdvisories_same_version advisory (p1 p2 : Package.t) :
  subject advisory = Some (Package.name p1) →
  Package.name p2 = Package.name p1 →
  Package.version p2 = Package.version p1 →
  affected satisfies (Package.version p1) (NpmAdvisory.vulnerable_versions advisory) = true →
  Processor.processAdvisories satisfies [advisory] [p1; p2]
  = Returns [Processor.createBunAdvisory advisory p1].
Proof.
  intros [Hor Htruthy]%subject_Some Hname Hversion Haffected.
  unfold Processor.processAdvisories. cbn [length bool_decide orb].
  rewrite !bool_decide_eq_false_2 by done. cbn [orb].
  cbn [Processor.processAdvisories_loop]. unfold Processor.processAdvisory.
  rewrite Hor, Htruthy. cbn [Processor.processAdvisory_loop].
  rewrite (bool_decide_eq_true_2 (Package.name p1 = Package.name p1)) by done.
  rewrite (bool_decide_eq_true_2 (Package.name p2 = Package.name p1)) by done.
  cbn [negb].
  rewrite (bool_decide_eq_false_2 (Processor.pairKey advisory p1 ∈ (∅ : gset string)))
    by apply not_elem_of_empty.
  rewrite Hversion, !isVersionAffected_returns, Haffected. cbn.
  rewrite (pairKey_same_package advisory p1 p2 Hname Hversion).
  rewrite bool_decide_eq_true_2
    by (apply elem_of_union_r; by apply elem_of_singleton).
  reflexivity.
Qed.

Lemma processAdvisories_two_versions advisory (p1 p2 : Package.t) :
  subject advisory = Some (Package.name p1) →
  Package.name p2 = Package.name p1 →
  Package.version p2 ≠ Package.version p1 →
  affected satisfies (Package.version p1) (NpmAdvisory.vulnerable_versions advisory) = true →
  affected satisfies (Package.version p2) (NpmAdvisory.vulnerable_versions advisory) = true →
  Processor.processAdvisories satisfies [advisory] [p1; p2]
  = Returns [Processor.createBunAdvisory advisory p1;
             Processor.createBunAdvisory advisory p2].
Proof.
  intros [Hor Htruthy]%subject_Some Hname Hversion Haffected1 Haffected2.
  unfold Processor.processAdvisories. cbn [length bool_decide orb].
  rewrite !bool_decide_eq_false_2 by done. cbn [orb].
  cbn [Processor.processAdvisories_loop]. unfold Processor.processAdvisory.
  rewrite Hor, Htruthy. cbn [Processor.processAdvisory_loop].
  rewrite (bool_decide_eq_true_2 (Package.name p1 = Package.name p1)) by done.
  rewrite (bool_decide_eq_true_2 (Package.name p2 = Package.name p1)) by done.
  cbn [negb].
  rewrite (bool_decide_eq_false_2 (Processor.pairKey advisory p1 ∈ (∅ : gset string)))
    by apply not_elem_of_empty.
  rewrite !isVersionAffected_returns, Haffected1. cbn.
  pose proof (pairKey_other_version advisory p1 p2 Hname Hversion) as Hkey.
  rewrite bool_decide_eq_false_2
    by (rewrite elem_of_union, elem_of_singleton; intros [[]%elem_of_empty|?]; done).
  rewrite Haffected2. reflexivity.
Qed.

End Deduplication.

(** C4. One run of [processAdvisories] returns at most one record per
    (advisory id, package name, package version) triple; for one advisory
    and two entries of the same name and version that are affected it
    returns exactly one record, and for two affected entries of the same
    name and different versions it returns two. *)
Theorem C4_processAdvisories_once_per_triple
    (satisfies : string → string → result bool) :
  (∀ advisories packages, ∃ matches,
      Processor.processAdvisories satisfies advisories packages
      = Returns (record_of <$> matches)
      ∧ NoDup (triple_of <$> matches)
      ∧ Forall (reportable satisfies advisories packages) matches)
  ∧ (∀ advisory p1 p2,
      subject advisory = Some (Package.name p1) →
      Package.name p2 = Package.name p1 →
      Package.version p2 = Package.version p1 →
      affected satisfies (Package.version p1)
        (NpmAdvisory.vulnerable_versions advisory) = true →
      ∃ record,
        Processor.processAdvisories satisfies [advisory] [p1; p2] = Returns [record])
  ∧ (∀ advisory p1 p2,
      subject advisory = Some (Package.name p1) →
      Package.name p2 = Package.name p1 →
      Package.version p2 ≠ Package.version p1 →
      affected satisfies (Package.version p1)
        (NpmAdvisory.vulnerable_versions advisory) = true →
      affected satisfies (Package.version p2)
        (NpmAdvisory.vulnerable_versions advisory) = true →
      ∃ record1 record2,
        Processor.processAdvisories satisfies [advisory] [p1; p2]
        = Returns [record1; record2]).
Proof.
  split; [|split].
  - intros advisories packages.
    destruct (processAdvisories_spec satisfies advisories packages)
      as (matches & Hrun & Hkeys & Hmatches).
    exists matches. auto using NoDup_key_triple.
  - intros advisory p1 p2 Hsubject Hname Hversion Haffected.
    eexists. by apply processAdvisories_same_version.
  - intros advisory p1 p2 Hsubject Hname Hversion Haffected1 Haffected2.
    do 2 eexists. by apply processAdvisories_two_versions.
Qed.

Lemma C4_processAdvisories_once_per_triple_witness :
  (∃ record,
      Processor.processAdvisories Semver.satisfies [Fixtures.wildcard_advisory]
        [Fixtures.package "lodash" "4.17.20" "^4.0.0";
         Fixtures.package "lodash" "4.17.20" "^4.17.0"]
      = Returns [record])
  ∧ (∃ record1 record2,
      Processor.processAdvisories Semver.satisfies [Fixtures.range_advisory]
        [Fixtures.package "lodash" "4.17.19" "^4.0.0";
         Fixtures.package "lodash" "4.17.20" "^4.0.0"]
      = Returns [record1; record2]).
Proof.
  split.
  - apply (proj1 (proj2 (C4_processAdvisories_once_per_triple Semver.satisfies)));
      reflexivity.
  - apply (proj2 (proj2 (C4_processAdvisories_once_per_triple Semver.satisfies)));
      solve [reflexivity | discriminate].
Defined.

(** ** Descriptions *)

Lemma length_append (s1 s2 : string) :
  String.length (s1 +:+ s2) = String.length s1 + String.length s2.
Proof. induction s1 as [|c s1 IH]; simpl; [reflexivity|]. f_equal. exact IH. Qed.

Lemma length_prefix (n : nat) (s : string) :
  String.length (String.substring 0 n s) = n `min` String.length s.
Proof.
  revert s. induction n as [|n IH]; intros [|c s]; simpl; try reflexivity.
  f_equal. apply IH.
Qed.

(** The hard truncation of a string longer than the limit: 197 characters
    and the ellipsis, 200 in all. *)
Lemma length_truncated (s : string) :
  MAX_DESCRIPTION_LENGTH SECURITY < String.length s →
  String.length (JS.substring s 0 (MAX_DESCRIPTION_LENGTH SECURITY - 3)) = 197
  ∧ String.length (JS.substring s 0 (MAX_DESCRIPTION_LENGTH SECURITY - 3) +:+ "...")
    = MAX_DESCRIPTION_LENGTH SECURITY.
Proof.
  unfold JS.substring. change (MAX_DESCRIPTION_LENGTH SECURITY) with 200.
  intros Hlong. rewrite length_append, Nat.sub_0_r.
  change (200 - 3) with 197. rewrite length_prefix.
  change (String.length "...") with 3. lia.
Qed.

Lemma getAdvisoryDescription_path advisory :
  description_path advisory (Processor.getAdvisoryDescription advisory).
Proof.
  unfold Processor.getAdvisoryDescription.
  destruct (Processor.trimmed (NpmAdvisory.overview advisory))
    as [overview|] eqn:Hoverview.
  - assert (Hsource : source_text advisory = Some overview).
    { unfold source_text. by rewrite Hoverview. }
    destruct (String.length overview <=? _) eqn:Hshort.
    { apply verbatim; [done|]. by apply Nat.leb_le. }
    apply Nat.leb_gt in Hshort.
    destruct (Processor.firstSentence overview) as [sentence|] eqn:Hsentence.
    + destruct (String.length sentence <=? _) eqn:Hfits.
      * eapply first_sentence; eauto. by apply Nat.leb_le.
      * apply hard_truncation; [done..|]. by apply length_truncated.
    + apply hard_truncation; [done..|]. by apply length_truncated.
  - destruct (Processor.trimmed (NpmAdvisory.recommendation advisory))
      as [recommendation|] eqn:Hrecommendation.
    + assert (Hsource : source_text advisory = Some recommendation).
      { unfold source_text. by rewrite Hoverview. }
      destruct (String.length recommendation <=? _) eqn:Hshort.
      { apply verbatim; [done|]. by apply Nat.leb_le. }
      apply Nat.leb_gt in Hshort.
      apply hard_truncation; [done..|]. by apply length_truncated.
    + apply no_description. unfold source_text. by rewrite Hoverview.
Qed.

Lemma description_path_within_limit advisory description :
  description_path advisory description → within_limit description.
Proof.
  destruct 1 as [text _ Hshort|overview sentence _ _ _ Hfits|text _ Hlong _| _];
    unfold within_limit; auto.
  apply length_truncated in Hlong as [_ Hlength]. by rewrite Hlength.
Qed.

(** C10. The description of every record [processAdvisories] returns is
    absent or at most 200 characters long; a description is the trimmed
    text as it is (within the limit), its first sentence (within the limit),
    or 197 characters of it followed by the three characters of ["..."]. *)
Theorem C10_description_within_limit :
  (∀ advisory,
      within_limit (Processor.getAdvisoryDescription advisory)
      ∧ description_path advisory (Processor.getAdvisoryDescription advisory))
  ∧ (∀ (satisfies : string → string → result bool) advisories packages,
      ∃ records,
        Processor.processAdvisories satisfies advisories packages = Returns records
        ∧ Forall (λ record, within_limit (Advisory.description record)) records).
Proof.
  split.
  - intros advisory. split; [|apply getAdvisoryDescription_path].
    eapply description_path_within_limit, getAdvisoryDescription_path.
  - intros satisfies advisories packages.
    destruct (processAdvisories_spec satisfies advisories packages)
      as (matches & -> & _ & _).
    eexists. split; [reflexivity|].
    apply Forall_fmap, Forall_forall. intros m _. cbn.
    eapply description_path_within_limit, getAdvisoryDescription_path.
Qed.

(** "truncates long descriptions": an overview of 300 letters [A]. *)
Example description_of_long_overview :
  Processor.getAdvisoryDescription
    (Fixtures.advisory (inr 1%Z) "Test" (Some "package") high "*"
       "https://example.com" (Some (String.concat "" (replicate 300 "A"))))
  = Some (String.concat "" (replicate 197 "A") +:+ "...").
Proof. vm_compute. reflexivity. Qed.

(** A long overview is cut after its first full stop, exclamation mark or
    question mark, wherever that stands. *)
Example description_of_first_sentence :
  Processor.getAdvisoryDescription
    (Fixtures.advisory (inr 1%Z) "Test" (Some "package") high "*"
       "https://example.com"
       (Some ("  Versions before 4.17.21 are vulnerable. "
              +:+ String.concat "" (replicate 300 "A"))))
  = Some "Versions before 4.".
Proof. vm_compute. reflexivity. Qed.

(** ** Computations *)

Lemma bind_lift_returns {A B} (a : A) (f : A → M B) (w : sent) :
  (lift (Returns a) ≫= f) w = f a w.
Proof. reflexivity. Qed.

Lemma bind_returns {A B} (m : M A) (f : A → M B) (w w' : sent) (a : A) :
  m w = (Returns a, w') → (m ≫= f) w = f a w'.
Proof. intros Hm. unfold mbind, M_bind. by rewrite Hm. Qed.

(** ** Response validation *)

(** Shape (b) is an object whose [advisories] property has shape (a). *)
Lemma NpmAuditResponseAltSchema_Ok data alt :
  NpmAuditResponseAltSchema (Some data) = Ok alt ↔
  ∃ fields inner,
    data = JObject fields
    ∧ field fields "advisories" = Some inner
    ∧ NpmAuditResponseSchema (Some inner) = Ok (NpmAuditResponseAlt.advisories alt)
    ∧ NpmAuditResponseAlt.metadata alt = field fields "metadata".
Proof.
  unfold NpmAuditResponseAltSchema, NpmAuditResponseSchema, z_object. split.
  - destruct data as [| | | | |fields]; try discriminate.
    destruct (field fields "advisories") as [inner|] eqn:Hinner; [|discriminate].
    destruct (z_record NpmAdvisorySchema (Some inner)) as [advisories|] eqn:Hadvisories;
      [|discriminate].
    cbn. destruct (field fields "metadata") as [metadata|] eqn:Hmetadata; cbn;
      intros [= <-]; exists fields, inner; cbn; auto.
  - intros (fields & inner & -> & Hinner & Hadvisories & Hmetadata).
    rewrite Hinner, Hadvisories. cbn. destruct alt as [advisories metadata].
    cbn in *. subst metadata. by destruct (field fields "metadata").
Qed.

Section Validation.

Variable api : NPM_AUDIT_API_t.
Variable respond : sent → NpmAuditRequest → result json.

Lemma executeBulkQuery_run payload w :
  Client.executeBulkQuery respond payload w
  = (match respond w payload with
     | Ok data => validated data
     | Err e => Throws e
     end, w ++ [payload]).
Proof.
  unfold Client.executeBulkQuery, Client.fetch_json, validated, mbind, M_bind.
  destruct (respond w payload) as [data|e]; cbn; [|reflexivity].
  unfold try_catch, lift, parse.
  destruct (NpmAuditResponseSchema (Some data)) as [advisories|ea]; cbn; [reflexivity|].
  unfold mbind, M_bind.
  destruct (NpmAuditResponseAltSchema (Some data)) as [altData|eb]; reflexivity.
Qed.

(** A bulk query returns or throws; it sends exactly its request. *)
Lemma executeBulkQuery_sent payload w :
  (Client.executeBulkQuery respond payload w).2 = w ++ [payload].
Proof. by rewrite executeBulkQuery_run. Qed.

Lemma executeBulkQuery_terminates payload w :
  (Client.executeBulkQuery respond payload w).1 ≠ Diverges.
Proof.
  rewrite executeBulkQuery_run. cbn. unfold validated.
  repeat case_match; discriminate.
Qed.

(** A query that needs no batching is one bulk query. *)
Lemma queryVulnerabilities_unbatched packages payload w :
  packages ≠ [] →
  Client.buildRequestPayload (Client.deduplicatePackages packages) = Returns payload →
  length (Client.deduplicatePackages packages) ≤ MAX_PACKAGES_PER_REQUEST api →
  Client.queryVulnerabilities api respond packages w
  = Client.executeBulkQuery respond payload w.
Proof.
  intros Hpackages Hpayload Hfew. unfold Client.queryVulnerabilities.
  rewrite bool_decide_eq_false_2 by (by destruct packages).
  rewrite Hpayload, bind_lift_returns.
  by rewrite bool_decide_eq_false_2 by lia.
Qed.

(** A query that needs batching is the batch loop. *)
Lemma queryVulnerabilities_batched packages payload w :
  Client.buildRequestPayload (Client.deduplicatePackages packages) = Returns payload →
  MAX_PACKAGES_PER_REQUEST api < length (Client.deduplicatePackages packages) →
  Client.queryVulnerabilities api respond packages w
  = Client.queryInBatches api respond (Client.deduplicatePackages packages) w.
Proof.
  intros Hpayload Hmany. unfold Client.queryVulnerabilities.
  rewrite bool_decide_eq_false_2.
  2:{ intros Hempty. destruct packages; [cbn in Hmany; lia|done]. }
  rewrite Hpayload, bind_lift_returns.
  by rewrite bool_decide_eq_true_2 by lia.
Qed.

End Validation.

(** C9. A bulk query validates the body as shape (a) first and returns
    its advisories; when that fails and the body is an object whose
    [advisories] property has shape (a), it returns those; when both
    validations fail, the query throws the validation error, and a query
    that is not split into batches throws it on to its caller. *)
Theorem C9_response_shapes
    (api : NPM_AUDIT_API_t) (respond : sent → NpmAuditRequest → result json)
    (payload : NpmAuditRequest) (w : sent) (data : json) :
  respond w payload = Ok data →
  (∀ advisories,
      NpmAuditResponseSchema (Some data) = Ok advisories →
      (Client.executeBulkQuery respond payload w).1
      = Returns (Client.Object_values advisories))
  ∧ (∀ ea fields inner advisories,
      NpmAuditResponseSchema (Some data) = Err ea →
      data = JObject fields →
      field fields "advisories" = Some inner →
      NpmAuditResponseSchema (Some inner) = Ok advisories →
      (Client.executeBulkQuery respond payload w).1
      = Returns (Client.Object_values advisories))
  ∧ (∀ ea eb,
      NpmAuditResponseSchema (Some data) = Err ea →
      NpmAuditResponseAltSchema (Some data) = Err eb →
      (Client.executeBulkQuery respond payload w).1 = Throws eb
      ∧ ∀ packages,
          packages ≠ [] →
          Client.buildRequestPayload (Client.deduplicatePackages packages)
          = Returns payload →
          length (Client.deduplicatePackages packages) ≤ MAX_PACKAGES_PER_REQUEST api →
          (Client.queryVulnerabilities api respond packages w).1 = Throws eb).
Proof.
  intros Hdata.
  assert (Hrun : (Client.executeBulkQuery respond payload w).1 = validated data).
  { by rewrite executeBulkQuery_run, Hdata. }
  split; [|split].
  - intros advisories Ha. rewrite Hrun. unfold validated. by rewrite Ha.
  - intros ea fields inner advisories Ha -> Hinner Hb.
    rewrite Hrun. unfold validated. rewrite Ha.
    destruct (NpmAuditResponseAltSchema (Some (JObject fields))) as [alt|eb] eqn:Halt.
    + apply NpmAuditResponseAltSchema_Ok in Halt
        as (fields' & inner' & [= <-] & Hinner' & Hadvisories & _).
      rewrite Hinner in Hinner'. injection Hinner' as <-.
      rewrite Hb in Hadvisories. by injection Hadvisories as <-.
    + exfalso.
      assert (Hok : NpmAuditResponseAltSchema (Some (JObject fields))
                    = Ok {| NpmAuditResponseAlt.advisories := advisories;
                            NpmAuditResponseAlt.metadata := field fields "metadata" |}).
      { apply NpmAuditResponseAltSchema_Ok. by exists fields, inner. }
      congruence.
  - intros ea eb Ha Hb.
    assert (Hthrows : (Client.executeBulkQuery respond payload w).1 = Throws eb).
    { rewrite Hrun. unfold validated. by rewrite Ha, Hb. }
    split; [exact Hthrows|].
    intros packages Hpackages Hpayload Hfew.
    by rewrite (queryVulnerabilities_unbatched api respond packages payload w).
Qed.

Lemma C9_response_shapes_witness :
  (Client.executeBulkQuery
     (λ _ _, Ok (JObject [("advisories", Registry.lodash_body);
                          ("metadata", JObject [])]))
     {["lodash" := ["4.17.20"]]} []).1
  = Returns (Client.Object_values [("1065", Registry.lodash_advisory)]).
Proof.
  eapply (proj1 (proj2
    (C9_response_shapes NPM_AUDIT_API
       (λ _ _, Ok (JObject [("advisories", Registry.lodash_body);
                            ("metadata", JObject [])]))
       {["lodash" := ["4.17.20"]]} [] _ eq_refl))).
  - vm_compute. reflexivity.
  - reflexivity.
  - reflexivity.
  - vm_compute. reflexivity.
Defined.

(** The schemas on the bodies of tests/schema.test.ts. *)
Example schema_fixtures :
  accepts NpmAdvisorySchema
    (Fixtures.minimal_advisory_body [("severity", JString "high")]) = true
  ∧ accepts NpmAdvisorySchema
      (Fixtures.minimal_advisory_body [("severity", JString "extreme")]) = false
  ∧ accepts NpmAdvisorySchema (Fixtures.minimal_advisory_body []) = false
  ∧ accepts NpmAdvisorySchema
      (Fixtures.minimal_advisory_body
         [("severity", JString "low"); ("cvss", JNull)]) = false
  ∧ accepts NpmAdvisorySchema
      (Fixtures.minimal_advisory_body
         [("severity", JString "low"); ("customField", JString "custom value")]) = true
  ∧ accepts NpmAuditResponseSchema (JObject []) = true
  ∧ accepts NpmAuditResponseSchema
      (JObject [("1065", Fixtures.minimal_advisory_body [])]) = false
  ∧ accepts NpmAuditResponseAltSchema
      (JObject [("advisories", JObject []);
                ("metadata", JObject [("vulnerabilities", JObject [])])]) = true
  ∧ accepts NpmAuditResponseAltSchema (JObject []) = false.
Proof. vm_compute. repeat split. Qed.

(** A body of neither shape makes the bulk query throw. *)
Example executeBulkQuery_neither_shape :
  (Client.executeBulkQuery
     (λ _ _, Ok (JObject [("1065", Fixtures.minimal_advisory_body [])]))
     {["lodash" := ["4.17.20"]]} []).1
  = Throws (ZodError "Expected object").
Proof. vm_compute. reflexivity. Qed.

(** ** Deduplication and grouping of the request *)

Lemma deduplicatePackages_loop_spec packages :
  ∀ packageMap,
    NoDup packageMap.*1 →
    (∀ entry, entry ∈ packageMap → entry.1 = Client.packageKey entry.2) →
    let result := Client.deduplicatePackages_loop packages packageMap in
    NoDup result.*1
    ∧ (∀ entry, entry ∈ result → entry.1 = Client.packageKey entry.2)
    ∧ (∀ key, key ∈ result.*1 ↔ key ∈ packageMap.*1 ∨ key ∈ Client.packageKey <$> packages)
    ∧ (∀ pkg, pkg ∈ result.*2 → pkg ∈ packageMap.*2 ∨ pkg ∈ packages).
Proof.
  induction packages as [|pkg rest IH]; intros packageMap Hnodup Hkeys; cbn zeta.
  - cbn. split; [done|]. split; [done|]. split; [|by left].
    intros key. rewrite elem_of_nil. tauto.
  - cbn [Client.deduplicatePackages_loop].
    case_bool_decide as Hseen; cbn [negb].
    + destruct (IH packageMap Hnodup Hkeys) as (IH1 & IH2 & IH3 & IH4).
      split; [done|]. split; [done|]. split.
      * intros key. rewrite IH3, fmap_cons, elem_of_cons.
        split; [intros [?|?]; auto|intros [?|[->|?]]; auto].
      * intros p [?|?]%IH4; auto. right. by apply list_elem_of_further.
    + destruct (IH (packageMap ++ [(Client.packageKey pkg, pkg)]))
        as (IH1 & IH2 & IH3 & IH4).
      * rewrite fmap_app. apply NoDup_app. split; [done|].
        split; [|apply NoDup_singleton].
        intros key Hkey ->%list_elem_of_singleton. done.
      * intros entry [?| ->%list_elem_of_singleton]%elem_of_app; auto.
      * split; [done|]. split; [done|]. split.
        -- intros key.
           rewrite IH3, fmap_app, elem_of_app, !fmap_cons, !elem_of_cons.
           rewrite fmap_nil, elem_of_nil. cbn [fst]. tauto.
        -- intros p [H|H]%IH4.
           ++ rewrite fmap_app in H.
              apply elem_of_app in H as [?| ->%list_elem_of_singleton]; auto.
              right. apply list_elem_of_here.
           ++ right. by apply list_elem_of_further.
Qed.

(** [deduplicatePackages] keeps one package per key, and only packages of
    the input; the number of packages it keeps is the number of distinct
    keys of the input. *)
Lemma deduplicatePackages_spec packages :
  let unique := Client.deduplicatePackages packages in
  NoDup (Client.packageKey <$> unique)
  ∧ (∀ key, key ∈ Client.packageKey <$> unique ↔ key ∈ Client.packageKey <$> packages)
  ∧ (∀ pkg, pkg ∈ unique → pkg ∈ packages)
  ∧ length unique = size (list_to_set (Client.packageKey <$> packages) : gset string).
Proof.
  cbn zeta. unfold Client.deduplicatePackages.
  destruct (deduplicatePackages_loop_spec packages [])
    as (Hnodup & Hkeys & Hsame & Hsub); [constructor|by intros ? ?%elem_of_nil|].
  set (result := Client.deduplicatePackages_loop packages []) in *.
  assert (Hfst : Client.packageKey <$> result.*2 = result.*1).
  { rewrite <- list_fmap_compose. apply list_fmap_ext.
    intros i entry Hentry. cbn. symmetry. apply Hkeys.
    by eapply list_elem_of_lookup_2. }
  rewrite Hfst. split; [done|]. split; [|split].
  - intros key. rewrite Hsame, fmap_nil, elem_of_nil. tauto.
  - intros pkg [[]%elem_of_nil|?]%Hsub. done.
  - rewrite <- (length_fmap Client.packageKey), Hfst.
    rewrite <- (size_list_to_set (C:=gset string)) by done.
    f_equal. apply set_eq. intros key.
    rewrite !elem_of_list_to_set, Hsame, fmap_nil, elem_of_nil. tauto.
Qed.

Lemma get_plain (payload : NpmAuditRequest) (key : string) :
  key ∉ Object_prototype →
  JS.get payload key
  = match payload !! key with
    | Some versions => Own versions
    | None => Undefined
    end.
Proof.
  intros Hplain. unfold JS.get. destruct (payload !! key); [done|].
  by rewrite bool_decide_eq_false_2.
Qed.

Lemma get_inherited (payload : NpmAuditRequest) (key : string) :
  key ∈ Object_prototype →
  payload !! key = None →
  JS.get payload key = Inherited.
Proof.
  intros Hproto Hfresh. unfold JS.get. rewrite Hfresh.
  by rewrite bool_decide_eq_true_2.
Qed.

Lemma requests_insert (payload : NpmAuditRequest) name versions n v :
  requests (<[name := versions]> payload) n v
  ↔ (n = name ∧ v ∈ versions) ∨ (n ≠ name ∧ requests payload n v).
Proof.
  unfold requests. split.
  - intros (vs & Hvs & Hv). destruct (decide (n = name)) as [->|Hne].
    + rewrite lookup_insert_eq in Hvs. injection Hvs as <-. by left.
    + rewrite lookup_insert_ne in Hvs by done. right. eauto.
  - intros [[-> Hv]|[Hne (vs & Hvs & Hv)]].
    + exists versions. by rewrite lookup_insert_eq.
    + exists vs. by rewrite lookup_insert_ne.
Qed.

Lemma distinct_versions_insert (payload : NpmAuditRequest) name versions :
  distinct_versions payload → NoDup versions →
  distinct_versions (<[name := versions]> payload).
Proof.
  intros Hpayload Hversions n vs. destruct (decide (n = name)) as [->|Hne].
  - rewrite lookup_insert_eq. by intros [= <-].
  - rewrite lookup_insert_ne by done. apply Hpayload.
Qed.

(** One iteration of the loop of [buildRequestPayload], for a name that
    [Object.prototype] does not know. *)
Lemma buildRequestPayload_loop_step pkg rest (payload : NpmAuditRequest) :
  plain_name pkg →
  distinct_versions payload →
  ∃ next : NpmAuditRequest,
    Client.buildRequestPayload_loop (pkg :: rest) payload
    = Client.buildRequestPayload_loop rest next
    ∧ distinct_versions next
    ∧ (∀ n, n ≠ Package.name pkg → next !! n = payload !! n)
    ∧ ∀ n v, requests next n v
             ↔ requests payload n v ∨ (n = Package.name pkg ∧ v = Package.version pkg).
Proof.
  intros Hplain Hdistinct. cbn [Client.buildRequestPayload_loop].
  rewrite (get_plain payload) by done.
  destruct (payload !! Package.name pkg) as [versions|] eqn:Hlookup.
  - rewrite (get_plain payload), Hlookup by done. unfold includes.
    case_bool_decide as Hin; cbn [negb].
    + exists payload. split; [done|]. split; [done|]. split; [done|].
      intros n v. split; [by left|]. intros [?|[-> ->]]; [done|].
      by exists versions.
    + eexists. split; [reflexivity|]. split; [|split].
      * apply distinct_versions_insert; [done|].
        apply NoDup_app. split; [by eapply Hdistinct|].
        split; [|apply NoDup_singleton].
        by intros v Hv ->%list_elem_of_singleton.
      * intros n Hne. by rewrite lookup_insert_ne.
      * intros n v. rewrite requests_insert, elem_of_app, list_elem_of_singleton.
        split.
        -- intros [[-> [Hv| ->]]|[_ ?]]; auto. left. by exists versions.
        -- intros [(vs & Hvs & Hv)|[-> ->]]; [|by auto].
           destruct (decide (n = Package.name pkg)) as [->|Hne].
           ++ left. rewrite Hlookup in Hvs. injection Hvs as <-. auto.
           ++ right. split; [done|]. by exists vs.
  - rewrite (get_plain (<[Package.name pkg:=[]]> payload)) by done.
    rewrite lookup_insert_eq. unfold includes.
    rewrite bool_decide_eq_false_2 by apply not_elem_of_nil. cbn [negb].
    rewrite insert_insert_eq.
    eexists. split; [reflexivity|]. split; [|split].
    + apply distinct_versions_insert; [done|]. apply NoDup_singleton.
    + intros n Hne. by rewrite lookup_insert_ne.
    + intros n v. rewrite requests_insert. cbn [app]. rewrite list_elem_of_singleton.
      split.
      * intros [[-> ->]|[_ ?]]; auto.
      * intros [(vs & Hvs & Hv)|[-> ->]]; [|by auto].
        destruct (decide (n = Package.name pkg)) as [->|Hne].
        -- rewrite Hlookup in Hvs. discriminate.
        -- right. split; [done|]. by exists vs.
Qed.

Lemma buildRequestPayload_loop_spec packages :
  ∀ payload : NpmAuditRequest,
    Forall plain_name packages →
    distinct_versions payload →
    ∃ result : NpmAuditRequest,
      Client.buildRequestPayload_loop packages payload = Returns result
      ∧ distinct_versions result
      ∧ ∀ n v, requests result n v
               ↔ requests payload n v
                 ∨ ∃ pkg, pkg ∈ packages ∧ Package.name pkg = n ∧ Package.version pkg = v.
Proof.
  induction packages as [|pkg rest IH]; intros payload Hplain Hdistinct.
  - exists payload. split; [done|]. split; [done|].
    intros n v. split; [by left|]. by intros [?|(? & []%elem_of_nil & _)].
  - apply Forall_cons in Hplain as [Hpkg Hrest].
    destruct (buildRequestPayload_loop_step pkg rest payload Hpkg Hdistinct)
      as (next & -> & Hnext & _ & Hrequests).
    destruct (IH next Hrest Hnext) as (result & -> & Hresult & Hall).
    exists result. split; [done|]. split; [done|].
    intros n v. rewrite Hall, Hrequests. split.
    + intros [[?|[-> ->]]|(p & ? & ? & ?)]; auto.
      * right. exists pkg. split; [apply list_elem_of_here|done].
      * right. exists p. split; [by apply list_elem_of_further|done].
    + intros [?|(p & [->|?]%elem_of_cons & <- & <-)]; auto.
      right. by exists p.
Qed.

(** For packages with plain names, [buildRequestPayload] returns the map
    from each name to the versions requested for it, none of them twice. *)
Lemma buildRequestPayload_spec packages :
  Forall plain_name packages →
  ∃ payload : NpmAuditRequest,
    Client.buildRequestPayload packages = Returns payload
    ∧ distinct_versions payload
    ∧ ∀ n v, requests payload n v
             ↔ ∃ pkg, pkg ∈ packages ∧ Package.name pkg = n ∧ Package.version pkg = v.
Proof.
  intros Hplain.
  destruct (buildRequestPayload_loop_spec packages ∅ Hplain)
    as (payload & Hrun & Hdistinct & Hrequests).
  { intros n vs. by rewrite lookup_empty. }
  exists payload. split; [done|]. split; [done|].
  intros n v. rewrite Hrequests. split; [|by right].
  intros [(vs & Hvs & _)|?]; [|done]. by rewrite lookup_empty in Hvs.
Qed.

(** A package named like a member of [Object.prototype] makes
    [buildRequestPayload] throw, wherever it stands in the list. *)
Lemma buildRequestPayload_loop_inherited packages :
  ∀ payload : NpmAuditRequest,
    (∀ n, n ∈ Object_prototype → payload !! n = None) →
    distinct_versions payload →
    Exists (λ pkg, ¬ plain_name pkg) packages →
    Client.buildRequestPayload_loop packages payload
    = Throws (TypeError "versions.includes is not a function").
Proof.
  induction packages as [|pkg rest IH]; intros payload Hfresh Hdistinct Hsome.
  - by apply Exists_nil in Hsome.
  - destruct (decide (plain_name pkg)) as [Hplain|Hinherited].
    + apply Exists_cons in Hsome as [?|Hsome]; [done|].
      destruct (buildRequestPayload_loop_step pkg rest payload Hplain Hdistinct)
        as (next & -> & Hnext & Hsame & _).
      apply IH; [|done|done].
      intros n Hn. rewrite Hsame; [by apply Hfresh|].
      intros ->. by apply Hplain.
    + unfold plain_name in Hinherited. apply dec_stable in Hinherited.
      cbn [Client.buildRequestPayload_loop].
      by rewrite !(get_inherited payload) by auto.
Qed.

Lemma buildRequestPayload_inherited packages :
  Exists (λ pkg, ¬ plain_name pkg) packages →
  Client.buildRequestPayload packages
  = Throws (TypeError "versions.includes is not a function").
Proof.
  apply buildRequestPayload_loop_inherited.
  - intros n _. apply lookup_empty.
  - intros n vs. by rewrite lookup_empty.
Qed.

(** ** Batching *)

Lemma ceil_div_upper n k : 0 < k → n ≤ ceil_div n k * k.
Proof.
  intros Hk. unfold ceil_div.
  pose proof (Nat.div_mod_eq (n + k - 1) k) as Hdiv.
  pose proof (Nat.mod_upper_bound (n + k - 1) k) as Hmod. nia.
Qed.

Lemma ceil_div_lower n k j : 0 < k → j < ceil_div n k → j * k < n.
Proof.
  intros Hk. unfold ceil_div.
  pose proof (Nat.div_mod_eq (n + k - 1) k) as Hdiv.
  pose proof (Nat.mod_upper_bound (n + k - 1) k) as Hmod. nia.
Qed.

Lemma ceil_div_le n k : 0 < k → ceil_div n k ≤ n.
Proof.
  intros Hk. destruct (decide (ceil_div n k = 0)) as [->|Hpos]; [lia|].
  pose proof (ceil_div_lower n k (ceil_div n k - 1) Hk). nia.
Qed.

Lemma buildRequestPayload_loop_terminates packages :
  ∀ payload, Client.buildRequestPayload_loop packages payload ≠ Diverges.
Proof.
  induction packages as [|pkg rest IH]; intros payload; [done|].
  cbn [Client.buildRequestPayload_loop]. repeat case_match; auto; done.
Qed.

Section Batching.

Variable api : NPM_AUDIT_API_t.
Variable respond : sent → NpmAuditRequest → result json.

(** The body of the batch loop after the payload is built: a failing query
    leaves the advisories as they were. *)
Lemma batch_attempt payload (advisories : list NpmAdvisory.t) w :
  try_catch
    (batchAdvisories ← Client.executeBulkQuery respond payload;
     mret (advisories ++ batchAdvisories))
    (λ _, mret advisories) w
  = (Returns (advisories
              ++ surviving (Client.executeBulkQuery respond payload w).1),
     w ++ [payload]).
Proof.
  unfold try_catch, mbind, M_bind.
  pose proof (executeBulkQuery_terminates respond payload w) as Hterminates.
  pose proof (executeBulkQuery_sent respond payload w) as Hsent.
  destruct (Client.executeBulkQuery respond payload w) as [[batch|e|] w'];
    cbn in *; subst w'; try done.
  by rewrite app_nil_r.
Qed.

Lemma queryInBatches_loop_spec packages :
  0 < MAX_PACKAGES_PER_REQUEST api →
  ∀ m j fuel advisories w payloads,
    Forall2 (λ batch payload, Client.buildRequestPayload batch = Returns payload)
      ((λ j, slice packages (j * MAX_PACKAGES_PER_REQUEST api)
               (j * MAX_PACKAGES_PER_REQUEST api + MAX_PACKAGES_PER_REQUEST api))
         <$> seq j m)
      payloads →
    j + m = ceil_div (length packages) (MAX_PACKAGES_PER_REQUEST api) →
    m ≤ fuel →
    Client.queryInBatches_loop api respond fuel packages
      (j * MAX_PACKAGES_PER_REQUEST api) advisories w
    = (Returns (advisories ++ concat (surviving <$> batch_outcomes respond payloads w)),
       w ++ payloads).
Proof.
  intros Hk. set (k := MAX_PACKAGES_PER_REQUEST api) in *.
  induction m as [|m IH]; intros j fuel advisories w payloads Hpayloads Hj Hfuel.
  - apply Forall2_nil_inv_l in Hpayloads as ->. cbn. rewrite !app_nil_r.
    assert (Hdone : ¬ j * k < length packages).
    { pose proof (ceil_div_upper (length packages) k Hk). rewrite <- Hj in *. lia. }
    destruct fuel; cbn; fold k; by rewrite bool_decide_eq_false_2.
  - cbn [seq fmap list_fmap] in Hpayloads.
    apply Forall2_cons_inv_l in Hpayloads
      as (payload & rest & Hpayload & Hrest & ->).
    assert (Hmore : j * k < length packages).
    { apply ceil_div_lower; [done|]. fold k in Hj. lia. }
    destruct fuel as [|fuel]; [lia|].
    cbn [Client.queryInBatches_loop]. fold k.
    rewrite bool_decide_eq_true_2 by done.
    rewrite Hpayload, bind_lift_returns.
    erewrite bind_returns by apply batch_attempt.
    replace (j * k + k) with (S j * k) by lia.
    rewrite (IH (S j) fuel _ (w ++ [payload]) rest); [| done | lia | lia].
    cbn [batch_outcomes fmap list_fmap concat].
    by rewrite <- !app_assoc.
Qed.

End Batching.

Lemma elem_of_concat {A} (x : A) (ls : list (list A)) :
  x ∈ concat ls ↔ ∃ l, l ∈ ls ∧ x ∈ l.
Proof.
  induction ls as [|l ls IH]; cbn.
  - rewrite elem_of_nil. split; [done|]. by intros (l & []%elem_of_nil & _).
  - rewrite elem_of_app, IH. split.
    + intros [?|(l' & ? & ?)].
      * exists l. split; [apply list_elem_of_here|done].
      * exists l'. split; [by apply list_elem_of_further|done].
    + intros (l' & [->|?]%elem_of_cons & ?); [by left|]. right. by exists l'.
Qed.

(** The batches are consecutive pieces of the list: put end to end, they
    are the list. *)
Lemma concat_slices {A} (k : nat) (l : list A) (m j : nat) :
  concat ((λ j, slice l (j * k) (j * k + k)) <$> seq j m)
  = take (m * k) (drop (j * k) l).
Proof.
  revert j. induction m as [|m IH]; intros j; [done|].
  cbn [seq fmap list_fmap concat]. rewrite IH. unfold slice.
  replace (j * k + k - j * k) with k by lia.
  replace (S j * k) with (j * k + k) by lia.
  by rewrite <- drop_drop, take_take_drop.
Qed.

Lemma concat_batches {A} (k : nat) (l : list A) :
  0 < k → concat (batches k l) = l.
Proof.
  intros Hk. unfold batches. rewrite concat_slices. cbn [Nat.mul drop].
  apply take_ge. by apply ceil_div_upper.
Qed.

Lemma length_batches {A} (k : nat) (l : list A) :
  length (batches k l) = ceil_div (length l) k.
Proof. unfold batches. by rewrite length_fmap, length_seq. Qed.

Lemma batches_size {A} (k : nat) (l : list A) :
  Forall (λ batch, length batch ≤ k) (batches k l).
Proof.
  unfold batches. apply Forall_fmap, Forall_forall. intros j _. cbn.
  unfold slice. rewrite length_take. lia.
Qed.

Lemma batches_Forall {A} (P : A → Prop) (k : nat) (l : list A) :
  Forall P l → Forall (Forall P) (batches k l).
Proof.
  intros Hl. unfold batches. apply Forall_fmap, Forall_forall. intros j _. cbn.
  unfold slice. by apply Forall_take, Forall_drop.
Qed.

Lemma payloads_exist (bs : list (list Package.t)) :
  Forall (Forall plain_name) bs →
  ∃ payloads : sent,
    Forall2 (λ batch payload, Client.buildRequestPayload batch = Returns payload)
      bs payloads.
Proof.
  induction 1 as [|batch bs Hbatch _ (payloads & IH)]; [by exists []|].
  destruct (buildRequestPayload_spec batch Hbatch) as (payload & Hpayload & _).
  exists (payload :: payloads). by constructor.
Qed.

Section BatchedQuery.

Variable api : NPM_AUDIT_API_t.
Variable respond : sent → NpmAuditRequest → result json.

(** [queryInBatches] sends one bulk query per batch, in order, whatever
    the earlier ones did, and returns what the successful ones found. *)
Lemma queryInBatches_spec packages w :
  0 < MAX_PACKAGES_PER_REQUEST api →
  Forall plain_name packages →
  ∃ payloads : sent,
    Forall2 (λ batch payload, Client.buildRequestPayload batch = Returns payload)
      (batches (MAX_PACKAGES_PER_REQUEST api) packages) payloads
    ∧ Client.queryInBatches api respond packages w
      = (Returns (concat (surviving <$> batch_outcomes respond payloads w)),
         w ++ payloads).
Proof.
  intros Hk Hplain.
  destruct (payloads_exist (batches (MAX_PACKAGES_PER_REQUEST api) packages))
    as (payloads & Hpayloads); [by apply batches_Forall|].
  exists payloads. split; [done|]. unfold Client.queryInBatches.
  change 0 with (0 * MAX_PACKAGES_PER_REQUEST api) at 1.
  by rewrite (queryInBatches_loop_spec api respond packages Hk
                (ceil_div (length packages) (MAX_PACKAGES_PER_REQUEST api)) 0
                (length packages) [] w payloads)
    by (done || by apply ceil_div_le).
Qed.

Lemma queryInBatches_loop_terminates packages :
  0 < MAX_PACKAGES_PER_REQUEST api →
  ∀ fuel i advisories w,
    length packages - i ≤ fuel →
    (Client.queryInBatches_loop api respond fuel packages i advisories w).1
    ≠ Diverges.
Proof.
  intros Hk. induction fuel as [|fuel IH]; intros i advisories w Hfuel.
  - cbn. rewrite bool_decide_eq_false_2 by lia. done.
  - cbn [Client.queryInBatches_loop]. case_bool_decide as Hmore; [|done].
    pose proof (buildRequestPayload_loop_terminates
                  (slice packages i (i + MAX_PACKAGES_PER_REQUEST api)) ∅) as Hbuild.
    fold (Client.buildRequestPayload (slice packages i (i + MAX_PACKAGES_PER_REQUEST api)))
      in Hbuild.
    destruct (Client.buildRequestPayload _) as [payload|e|]; [|done|done].
    rewrite bind_lift_returns. erewrite bind_returns by apply batch_attempt.
    apply IH. lia.
Qed.

Lemma queryVulnerabilities_terminates packages w :
  0 < MAX_PACKAGES_PER_REQUEST api →
  (Client.queryVulnerabilities api respond packages w).1 ≠ Diverges.
Proof.
  intros Hk. unfold Client.queryVulnerabilities.
  case_bool_decide; [done|].
  pose proof (buildRequestPayload_loop_terminates
                (Client.deduplicatePackages packages) ∅) as Hbuild.
  fold (Client.buildRequestPayload (Client.deduplicatePackages packages)) in Hbuild.
  destruct (Client.buildRequestPayload _) as [payload|e|]; [|done|done].
  rewrite bind_lift_returns. case_bool_decide.
  - apply queryInBatches_loop_terminates; [done|lia].
  - apply executeBulkQuery_terminates.
Qed.

End BatchedQuery.

(** A payload that can be built holds no name of [Object.prototype]. *)
Lemma buildRequestPayload_Returns_plain packages (payload : NpmAuditRequest) :
  Client.buildRequestPayload packages = Returns payload →
  Forall plain_name packages.
Proof.
  intros Hpayload. destruct (decide (Forall plain_name packages)) as [|Hsome]; [done|].
  apply not_Forall_Exists in Hsome; [|apply _].
  rewrite (buildRequestPayload_inherited packages) in Hpayload; [done|].
  eapply Exists_impl; [exact Hsome|]. by intros pkg.
Qed.

Section Registries.

Variable respond : sent → NpmAuditRequest → result json.

Lemma batch_outcomes_app payloads1 payloads2 w :
  batch_outcomes respond (payloads1 ++ payloads2) w
  = batch_outcomes respond payloads1 w
    ++ batch_outcomes respond payloads2 (w ++ payloads1).
Proof.
  revert w. induction payloads1 as [|payload payloads1 IH]; intros w; cbn.
  - by rewrite app_nil_r.
  - by rewrite IH, <- app_assoc.
Qed.

Lemma batched_members db payloads :
  serves respond db →
  ∀ w advisory,
    advisory ∈ concat (surviving <$> batch_outcomes respond payloads w)
    ↔ ∃ payload, payload ∈ payloads ∧ answers db payload advisory.
Proof.
  intros Hserves. induction payloads as [|payload payloads IH]; intros w advisory.
  - cbn. rewrite elem_of_nil. split; [done|]. by intros (? & []%elem_of_nil & _).
  - cbn [batch_outcomes fmap list_fmap concat]. rewrite elem_of_app, IH.
    destruct (Hserves w payload) as (advisories & -> & Hadvisories).
    cbn [surviving]. rewrite Hadvisories. split.
    + intros [?|(p & ? & ?)].
      * exists payload. split; [apply list_elem_of_here|done].
      * exists p. split; [by apply list_elem_of_further|done].
    + intros (p & [->|?]%elem_of_cons & ?); [by left|]. right. by exists p.
Qed.

(** What the payload of a batch asks about. *)
Lemma batch_requests api packages batch (payload : NpmAuditRequest) n v :
  Forall plain_name packages →
  batch ∈ batches (MAX_PACKAGES_PER_REQUEST api) packages →
  Client.buildRequestPayload batch = Returns payload →
  requests payload n v
  ↔ ∃ pkg, pkg ∈ batch ∧ Package.name pkg = n ∧ Package.version pkg = v.
Proof.
  intros Hplain Hbatch Hbuild.
  assert (Hbatch_plain : Forall plain_name batch).
  { eapply Forall_forall in Hbatch; [exact Hbatch|]. by apply batches_Forall. }
  destruct (buildRequestPayload_spec batch Hbatch_plain) as (p' & Hp' & _ & Hrequests).
  rewrite Hbuild in Hp'. injection Hp' as <-. apply Hrequests.
Qed.

(** Against such a registry, batching finds the advisories one query for
    all packages finds. *)
Lemma batched_same_members api db packages w :
  0 < MAX_PACKAGES_PER_REQUEST api →
  Forall plain_name packages →
  serves respond db →
  ∃ batched single,
    (Client.queryInBatches api respond packages w).1 = Returns batched
    ∧ (unbatched_query respond packages w).1 = Returns single
    ∧ ∀ advisory, advisory ∈ batched ↔ advisory ∈ single.
Proof.
  intros Hk Hplain Hserves.
  destruct (queryInBatches_spec api respond packages w Hk Hplain)
    as (payloads & Hpayloads & ->).
  destruct (buildRequestPayload_spec packages Hplain)
    as (payload & Hpayload & _ & Hrequests).
  unfold unbatched_query. rewrite Hpayload, bind_lift_returns.
  destruct (Hserves w payload) as (single & Hsingle & Hmembers).
  eexists _, single. split; [reflexivity|]. split; [done|].
  intros advisory. rewrite (batched_members db payloads Hserves), Hmembers.
  unfold answers. split.
  - intros (p & Hp & n & v & Hnv & Hdb). exists n, v. split; [|done].
    apply list_elem_of_lookup in Hp as (i & Hi).
    destruct (Forall2_lookup_r _ _ _ _ _ Hpayloads Hi) as (batch & Hbatch & Hbuild).
    apply list_elem_of_lookup_2 in Hbatch.
    apply (batch_requests api packages batch p) in Hnv as (pkg & Hpkg & <- & <-);
      [|done..].
    apply Hrequests. exists pkg. split; [|done].
    rewrite <- (concat_batches (MAX_PACKAGES_PER_REQUEST api) packages Hk).
    apply elem_of_concat. by exists batch.
  - intros (n & v & Hnv & Hdb).
    apply Hrequests in Hnv as (pkg & Hpkg & <- & <-).
    rewrite <- (concat_batches (MAX_PACKAGES_PER_REQUEST api) packages Hk) in Hpkg.
    apply elem_of_concat in Hpkg as (batch & Hbatch & Hpkg).
    apply list_elem_of_lookup in Hbatch as (i & Hi).
    destruct (Forall2_lookup_l _ _ _ _ _ Hpayloads Hi) as (p & Hp & Hbuild).
    exists p. split; [by eapply list_elem_of_lookup_2|].
    exists (Package.name pkg), (Package.version pkg). split; [|done].
    apply list_elem_of_lookup_2 in Hi.
    apply (batch_requests api packages batch p); [done..|]. by exists pkg.
Qed.

End Registries.

Lemma Registry_serves : serves Registry.respond Registry.advisories_of.
Proof.
  intros w payload. rewrite executeBulkQuery_run. unfold Registry.respond.
  assert (Hnone : ∀ a, payload !! "lodash" = None ∨ payload !! "lodash" = Some [] →
            ¬ answers Registry.advisories_of payload a).
  { intros a Hlookup (n & v & (vs & Hvs & Hv) & Ha).
    unfold Registry.advisories_of in Ha. case_bool_decide as Hn.
    - subst n. destruct Hlookup as [Hl|Hl]; rewrite Hl in Hvs; [done|].
      injection Hvs as <-. by apply elem_of_nil in Hv.
    - by apply elem_of_nil in Ha. }
  destruct (payload !! "lodash") as [[|v vs]|] eqn:Hlookup.
  - exists []. split; [reflexivity|]. intros a. rewrite elem_of_nil.
    split; [done|]. apply Hnone. by right.
  - exists [Registry.lodash_advisory]. split; [reflexivity|].
    intros a. rewrite list_elem_of_singleton. split.
    + intros ->. exists "lodash", v. split; [|apply list_elem_of_here].
      exists (v :: vs). split; [done|apply list_elem_of_here].
    + intros (n & v' & _ & Ha). unfold Registry.advisories_of in Ha.
      case_bool_decide; [by apply list_elem_of_singleton in Ha|by apply elem_of_nil in Ha].
  - exists []. split; [reflexivity|]. intros a. rewrite elem_of_nil.
    split; [done|]. apply Hnone. by left.
Qed.

Lemma lodash_versions_payload n :
  ∃ payload : NpmAuditRequest,
    Client.buildRequestPayload (Registry.lodash_versions n) = Returns payload.
Proof.
  destruct (buildRequestPayload_spec (Registry.lodash_versions n))
    as (payload & Hpayload & _); [|by exists payload].
  apply Forall_fmap, Forall_forall. intros i _.
  apply (bool_decide_unpack _). vm_compute. exact I.
Qed.

(** C7, as amended. For [N] packages whose payload can be built and a
    positive batch size [K], [queryInBatches] sends exactly [⌈N/K⌉]
    requests, those of the consecutive batches of at most [K] packages, and
    returns the concatenation of what the successful ones found; against a
    registry that answers a request with the advisories of the packages
    asked about, that result has the same members as the result of one
    query for all packages. *)
Theorem C7_queryInBatches_batches
    (api : NPM_AUDIT_API_t) (respond : sent → NpmAuditRequest → result json)
    (packages : list Package.t) (payload : NpmAuditRequest) (w : sent) :
  0 < MAX_PACKAGES_PER_REQUEST api →
  Client.buildRequestPayload packages = Returns payload →
  ∃ payloads : sent,
    Forall2 (λ batch payload, Client.buildRequestPayload batch = Returns payload)
      (batches (MAX_PACKAGES_PER_REQUEST api) packages) payloads
    ∧ concat (batches (MAX_PACKAGES_PER_REQUEST api) packages) = packages
    ∧ Forall (λ batch, length batch ≤ MAX_PACKAGES_PER_REQUEST api)
        (batches (MAX_PACKAGES_PER_REQUEST api) packages)
    ∧ length payloads = ceil_div (length packages) (MAX_PACKAGES_PER_REQUEST api)
    ∧ Client.queryInBatches api respond packages w
      = (Returns (concat (surviving <$> batch_outcomes respond payloads w)),
         w ++ payloads)
    ∧ ∀ db, serves respond db →
        ∃ batched single,
          (Client.queryInBatches api respond packages w).1 = Returns batched
          ∧ (unbatched_query respond packages w).1 = Returns single
          ∧ ∀ advisory, advisory ∈ batched ↔ advisory ∈ single.
Proof.
  intros Hk Hplain%buildRequestPayload_Returns_plain.
  destruct (queryInBatches_spec api respond packages w Hk Hplain)
    as (payloads & Hpayloads & Hrun).
  exists payloads. split; [done|]. split; [by apply concat_batches|].
  split; [apply batches_size|]. split.
  { rewrite <- (Forall2_length _ _ _ Hpayloads). apply length_batches. }
  split; [done|]. intros db Hserves. by eapply batched_same_members.
Qed.

Lemma C7_queryInBatches_batches_witness :
  ∃ batched single,
    (Client.queryInBatches Registry.small_batches Registry.respond
       (Registry.lodash_versions 3) []).1 = Returns batched
    ∧ (unbatched_query Registry.respond (Registry.lodash_versions 3) []).1
      = Returns single
    ∧ ∀ advisory, advisory ∈ batched ↔ advisory ∈ single.
Proof.
  destruct (lodash_versions_payload 3) as (payload & Hpayload).
  destruct (C7_queryInBatches_batches Registry.small_batches Registry.respond
              (Registry.lodash_versions 3) payload [])
    as (payloads & _ & _ & _ & _ & _ & Hsame).
  - cbn. lia.
  - exact Hpayload.
  - exact (Hsame Registry.advisories_of Registry_serves).
Defined.

(** C7, as stated, fails: with the batch size of [constants.ts], lodash at
    1001 versions is asked about in two batches; no batch fails, each finds
    the advisory, and their concatenation holds it twice, while one query
    for all 1001 packages finds it once. *)
Lemma C7_concatenation_counterexample :
  MAX_PACKAGES_PER_REQUEST NPM_AUDIT_API = 1000
  ∧ (Client.queryVulnerabilities NPM_AUDIT_API Registry.respond
       (Registry.lodash_versions 1001) []).1
    = Returns [Registry.lodash_advisory; Registry.lodash_advisory]
  ∧ (unbatched_query Registry.respond
       (Client.deduplicatePackages (Registry.lodash_versions 1001)) []).1
    = Returns [Registry.lodash_advisory].
Proof. split; [reflexivity|]. split; vm_compute; reflexivity. Qed.

(** The same on a small scale. *)
Example queryInBatches_repeats_advisory :
  Client.queryInBatches Registry.small_batches Registry.respond
    (Registry.lodash_versions 3) []
  = (Returns [Registry.lodash_advisory; Registry.lodash_advisory],
     [ {["lodash" := ["0"; "1"]]}; {["lodash" := ["2"]]} ])
  ∧ unbatched_query Registry.respond (Registry.lodash_versions 3) []
    = (Returns [Registry.lodash_advisory], [ {["lodash" := ["0"; "1"; "2"]]} ]).
Proof. split; vm_compute; reflexivity. Qed.

(** C8. When the packages are split into batches, a batch whose query
    throws stops nothing: every batch is still sent, in order, the query
    returns and does not throw, and what it returns is what the batches
    before and after the failing one found. *)
Theorem C8_failing_batch_is_skipped
    (api : NPM_AUDIT_API_t) (respond : sent → NpmAuditRequest → result json)
    (packages : list Package.t) (payload : NpmAuditRequest) (w : sent) :
  0 < MAX_PACKAGES_PER_REQUEST api →
  Client.buildRequestPayload (Client.deduplicatePackages packages) = Returns payload →
  MAX_PACKAGES_PER_REQUEST api < length (Client.deduplicatePackages packages) →
  ∃ payloads : sent,
    Forall2 (λ batch payload, Client.buildRequestPayload batch = Returns payload)
      (batches (MAX_PACKAGES_PER_REQUEST api) (Client.deduplicatePackages packages))
      payloads
    ∧ (Client.queryVulnerabilities api respond packages w).2 = w ++ payloads
    ∧ (Client.queryVulnerabilities api respond packages w).1
      = Returns (concat (surviving <$> batch_outcomes respond payloads w))
    ∧ ∀ before failing after e,
        payloads = before ++ failing :: after →
        (Client.executeBulkQuery respond failing (w ++ before)).1 = Throws e →
        (Client.queryVulnerabilities api respond packages w).1
        = Returns (concat (surviving <$> batch_outcomes respond before w)
                   ++ concat (surviving <$> batch_outcomes respond after
                                              (w ++ before ++ [failing]))).
Proof.
  intros Hk Hpayload Hmany.
  rewrite (queryVulnerabilities_batched api respond packages payload w Hpayload Hmany).
  apply buildRequestPayload_Returns_plain in Hpayload as Hplain.
  destruct (queryInBatches_spec api respond (Client.deduplicatePackages packages)
              w Hk Hplain)
    as (payloads & Hpayloads & ->).
  exists payloads. split; [done|]. split; [done|]. split; [done|].
  intros before failing after e -> Hfails. cbn [fst]. f_equal.
  rewrite batch_outcomes_app, fmap_app, concat_app.
  cbn [batch_outcomes fmap list_fmap concat]. rewrite Hfails. cbn [surviving app].
  by rewrite <- app_assoc.
Qed.

Lemma C8_failing_batch_is_skipped_witness :
  (Client.queryVulnerabilities Registry.small_batches Registry.flaky
     (Registry.lodash_versions 3) []).1
  = Returns [Registry.lodash_advisory].
Proof.
  destruct (C8_failing_batch_is_skipped Registry.small_batches Registry.flaky
              (Registry.lodash_versions 3) {["lodash" := ["0"; "1"; "2"]]} [])
    as (payloads & Hpayloads & _ & _ & Hskip).
  - cbn. lia.
  - vm_compute. reflexivity.
  - vm_compute. lia.
  - apply Forall2_cons_inv_l in Hpayloads as (first & rest & Hfirst & Hrest & ->).
    apply Forall2_cons_inv_l in Hrest as (second & rest' & Hsecond & Hrest & ->).
    apply Forall2_nil_inv_l in Hrest as ->.
    injection Hfirst as <-. injection Hsecond as <-.
    exact (Hskip [] _ [_] _ eq_refl eq_refl).
Defined.

(** The failing first batch is sent, and so is the second. *)
Example queryInBatches_flaky_registry :
  Client.queryInBatches Registry.small_batches Registry.flaky
    (Registry.lodash_versions 3) []
  = (Returns [Registry.lodash_advisory],
     [ {["lodash" := ["0"; "1"]]}; {["lodash" := ["2"]]} ]).
Proof. vm_compute. reflexivity. Qed.

(** ** The scan *)

Section Scan.

Variable satisfies : string → string → result bool.
Variable respond : sent → NpmAuditRequest → result json.

Lemma scan_run packages w :
  Scanner.scan satisfies respond packages w
  = (Returns (answer satisfies
                (Client.queryVulnerabilities NPM_AUDIT_API respond packages w).1
                packages),
     (Client.queryVulnerabilities NPM_AUDIT_API respond packages w).2).
Proof.
  unfold Scanner.scan, try_catch, mbind, M_bind.
  pose proof (queryVulnerabilities_terminates NPM_AUDIT_API respond packages w)
    as Hterminates.
  destruct (Client.queryVulnerabilities NPM_AUDIT_API respond packages w)
    as [[advisories|e|] w']; cbn [fst snd] in *.
  - destruct (processAdvisories_spec satisfies advisories packages)
      as (matches & Hmatches & _).
    unfold lift, answer. by rewrite Hmatches.
  - reflexivity.
  - exfalso. apply Hterminates; [cbn; lia|done].
Qed.

End Scan.

(** C1. For every package list, whatever the registry and the version
    matcher do, [scan] returns a list of advisories and never throws; when
    the query throws, that list is empty. *)
Theorem C1_scan_never_throws
    (satisfies : string → string → result bool)
    (respond : sent → NpmAuditRequest → result json)
    (packages : list Package.t) (w : sent) :
  (∃ advisories w',
      Scanner.scan satisfies respond packages w = (Returns advisories, w'))
  ∧ (∀ e,
      (Client.queryVulnerabilities NPM_AUDIT_API respond packages w).1 = Throws e →
      Scanner.scan satisfies respond packages w
      = (Returns [], (Client.queryVulnerabilities NPM_AUDIT_API respond packages w).2))
  ∧ (∀ advisories,
      (Client.queryVulnerabilities NPM_AUDIT_API respond packages w).1
      = Returns advisories →
      (Scanner.scan satisfies respond packages w).1
      = Processor.processAdvisories satisfies advisories packages).
Proof.
  rewrite scan_run. split; [eauto|]. split.
  - by intros e ->.
  - intros advisories ->. cbn.
    by destruct (processAdvisories_spec satisfies advisories packages)
      as (matches & -> & _).
Qed.

(** The registry is down: the request is sent, and the scan reports
    nothing. *)
Example scan_registry_down :
  Scanner.scan Semver.satisfies Registry.unreachable
    [Fixtures.package "lodash" "4.17.20" "^4.0.0"] []
  = (Returns [], [ {["lodash" := ["4.17.20"]]} ]).
Proof. vm_compute. reflexivity. Qed.

(** The scenario of the specification: lodash 4.17.20 is reported. *)
Example scan_finds_lodash :
  (Scanner.scan Semver.satisfies Registry.respond
     [Fixtures.package "lodash" "4.17.20" "^4.0.0"] []).1
  = Returns
      [{| Advisory.id := "1065";
          Advisory.message := "Prototype Pollution in lodash";
          Advisory.level := fatal;
          Advisory.package := "lodash";
          Advisory.url := "https://github.com/advisories/GHSA-p6mc-m468-83gw";
          Advisory.description := None |}].
Proof. vm_compute. reflexivity. Qed.

(** ** A package named like a member of [Object.prototype] *)

(** C6 fails on the code. For the package [constructor@1.0.0] the payload
    is not built: [payload["constructor"]] is the inherited [Object]
    function, so [versions.includes] is not a function and
    [buildRequestPayload] throws. [queryVulnerabilities] throws with it
    before any request is sent, and [scan] then reports nothing, also for
    the vulnerable lodash that is installed along. *)
Theorem C6_buildRequestPayload_inherited_name :
  Client.buildRequestPayload [Fixtures.package "constructor" "1.0.0" "^1.0.0"]
  = Throws (TypeError "versions.includes is not a function")
  ∧ (∀ api respond w,
      Client.queryVulnerabilities api respond
        [Fixtures.package "constructor" "1.0.0" "^1.0.0"] w
      = (Throws (TypeError "versions.includes is not a function"), w))
  ∧ Scanner.scan Semver.satisfies Registry.respond
      [Fixtures.package "lodash" "4.17.20" "^4.0.0";
       Fixtures.package "constructor" "1.0.0" "^1.0.0"] []
    = (Returns [], []).
Proof.
  split; [reflexivity|]. split; [reflexivity|]. vm_compute. reflexivity.
Qed.

(** ** Well-formed packages *)

Lemma has_char_append c (s1 s2 : string) :
  has_char c (s1 +:+ String c s2) = true.
Proof.
  induction s1 as [|c' s1 IH]; simpl.
  - by rewrite bool_decide_eq_true_2.
  - rewrite IH. apply orb_true_r.
Qed.

(** The key [name@version] determines the name and the version when no
    version contains an [@]. *)
Lemma key_inj (n1 v1 n2 v2 : string) :
  has_char "@" v1 = false →
  has_char "@" v2 = false →
  n1 +:+ "@" +:+ v1 = n2 +:+ "@" +:+ v2 →
  n1 = n2 ∧ v1 = v2.
Proof.
  intros Hv1 Hv2. revert n2.
  induction n1 as [|c1 n1 IH]; intros [|c2 n2] Hkey.
  - change (String "@" v1 = String "@" v2) in Hkey. by injection Hkey.
  - change (String "@" v1 = String c2 (n2 +:+ String "@" v2)) in Hkey.
    injection Hkey as _ ->. by rewrite has_char_append in Hv1.
  - change (String c1 (n1 +:+ String "@" v1) = String "@" v2) in Hkey.
    injection Hkey as _ <-. by rewrite has_char_append in Hv2.
  - change (String c1 (n1 +:+ "@" +:+ v1) = String c2 (n2 +:+ "@" +:+ v2)) in Hkey.
    injection Hkey as -> Hrest. by destruct (IH n2 Hrest) as [-> ->].
Qed.

(** For well-formed packages the request is as the specification says:
    the packages queried are one per key of the input, as many as the input
    has distinct keys, and the payload maps each name to the versions
    requested for it, each version once. *)
Theorem queryVulnerabilities_request_well_formed (packages : list Package.t) :
  Forall well_formed packages →
  ∃ payload : NpmAuditRequest,
    Client.buildRequestPayload (Client.deduplicatePackages packages) = Returns payload
    ∧ NoDup (Client.packageKey <$> Client.deduplicatePackages packages)
    ∧ (∀ key, key ∈ Client.packageKey <$> Client.deduplicatePackages packages
              ↔ key ∈ Client.packageKey <$> packages)
    ∧ length (Client.deduplicatePackages packages)
      = size (list_to_set (Client.packageKey <$> packages) : gset string)
    ∧ distinct_versions payload
    ∧ ∀ name version,
        requests payload name version
        ↔ ∃ pkg, pkg ∈ packages ∧ Package.name pkg = name
                 ∧ Package.version pkg = version.
Proof.
  intros Hwf.
  destruct (deduplicatePackages_spec packages) as (Hnodup & Hkeys & Hsub & Hlength).
  assert (Hunique : Forall plain_name (Client.deduplicatePackages packages)).
  { apply Forall_forall. intros pkg Hpkg%Hsub.
    eapply Forall_forall in Hwf; [|exact Hpkg]. apply Hwf. }
  destruct (buildRequestPayload_spec _ Hunique)
    as (payload & Hpayload & Hdistinct & Hrequests).
  exists payload. do 5 (split; [done|]).
  intros name version. rewrite Hrequests. split.
  - intros (pkg & Hpkg%Hsub & ?). by exists pkg.
  - intros (pkg & Hpkg & <- & <-).
    assert (Hkey : Client.packageKey pkg
                   ∈ Client.packageKey <$> Client.deduplicatePackages packages).
    { apply Hkeys. by apply list_elem_of_fmap_2. }
    apply list_elem_of_fmap in Hkey as (pkg' & Hkey & Hpkg').
    exists pkg'. split; [done|].
    pose proof (proj1 (Forall_forall _ _) Hwf pkg Hpkg) as [_ Hv].
    pose proof (proj1 (Forall_forall _ _) Hwf pkg' (Hsub _ Hpkg')) as [_ Hv'].
    unfold Client.packageKey in Hkey.
    by destruct (key_inj _ _ _ _ Hv Hv' Hkey) as [-> ->].
Qed.

Lemma queryVulnerabilities_request_well_formed_witness :
  ∃ payload : NpmAuditRequest,
    Client.buildRequestPayload
      (Client.deduplicatePackages
         [Fixtures.package "lodash" "4.17.20" "^4.0.0";
          Fixtures.package "lodash" "4.17.20" "^4.17.0";
          Fixtures.package "lodash" "4.17.21" "^4.0.0";
          Fixtures.package "@babel/core" "7.0.0" "^7.0.0"])
    = Returns payload
    ∧ payload = {[ "lodash" := ["4.17.20"; "4.17.21"]; "@babel/core" := ["7.0.0"] ]}.
Proof.
  destruct (queryVulnerabilities_request_well_formed
              [Fixtures.package "lodash" "4.17.20" "^4.0.0";
               Fixtures.package "lodash" "4.17.20" "^4.17.0";
               Fixtures.package "lodash" "4.17.21" "^4.0.0";
               Fixtures.package "@babel/core" "7.0.0" "^7.0.0"])
    as (payload & Hpayload & _).
  - apply (bool_decide_unpack _). vm_compute. exact I.
  - exists payload. split; [exact Hpayload|].
    assert (Hcomputed :
      Client.buildRequestPayload
        (Client.deduplicatePackages
           [Fixtures.package "lodash" "4.17.20" "^4.0.0";
            Fixtures.package "lodash" "4.17.20" "^4.17.0";
            Fixtures.package "lodash" "4.17.21" "^4.0.0";
            Fixtures.package "@babel/core" "7.0.0" "^7.0.0"])
      = Returns {[ "lodash" := ["4.17.20"; "4.17.21"]; "@babel/core" := ["7.0.0"] ]})
      by (vm_compute; reflexivity).
    rewrite Hcomputed in Hpayload. by injection Hpayload.
Defined.

(** Every package list with a name of [Object.prototype] in it stops the
    query before a request is sent. *)
Theorem queryVulnerabilities_inherited_name
    (api : NPM_AUDIT_API_t) (respond : sent → NpmAuditRequest → result json)
    (packages : list Package.t) (w : sent) :
  Exists (λ pkg, ¬ plain_name pkg)  (Client.deduplicatePackages packages) →
  Client.queryVulnerabilities api respond packages w
  = (Throws (TypeError "versions.includes is not a function"), w).
Proof.
  intros Hsome. unfold Client.queryVulnerabilities.
  case_bool_decide as Hempty.
  { destruct packages; [|done]. by apply Exists_nil in Hsome. }
  by rewrite (buildRequestPayload_inherited _ Hsome).
Qed.

Lemma queryVulnerabilities_inherited_name_witness :
  Client.queryVulnerabilities NPM_AUDIT_API Registry.respond
    [Fixtures.package "lodash" "4.17.20" "^4.0.0";
     Fixtures.package "constructor" "1.0.0" "^1.0.0"] []
  = (Throws (TypeError "versions.includes is not a function"), []).
Proof.
  apply queryVulnerabilities_inherited_name.
  apply Exists_cons_tl, Exists_cons_hd. intros Hplain. apply Hplain.
  apply (bool_decide_unpack _). vm_compute. exact I.
Defined.

(** The key does not tell a name from a version that holds an [@]: the
    second of these packages is taken for a repetition of the first. *)
Example deduplicatePackages_key_collision :
  Client.deduplicatePackages
    [Fixtures.package "a" "b@c" "*"; Fixtures.package "a@b" "c" "*"]
  = [Fixtures.package "a" "b@c" "*"].
Proof. reflexivity. Qed.

(** ** The processor reports every match, and a repeated advisory adds nothing *)

Section ProcessorRuns.

Variable satisfies : string → string → result bool.

Lemma processAdvisory_loop_run advisory n packages :
  ∀ bunAdvisories processedPairs,
    ∃ new processedPairs',
      Processor.processAdvisory_loop satisfies advisory n packages
        bunAdvisories processedPairs
      = Returns (bunAdvisories ++ (record_of <$> new), processedPairs')
      ∧ (∀ k, k ∈ processedPairs' ↔ k ∈ processedPairs ∨ k ∈ key_of <$> new)
      ∧ (∀ pkg, pkg ∈ packages → Package.name pkg = n →
           affected satisfies (Package.version pkg)
             (NpmAdvisory.vulnerable_versions advisory) = true →
           Processor.pairKey advisory pkg ∈ processedPairs')
      ∧ Forall (found_in satisfies advisory n packages) new
      ∧ NoDup (key_of <$> new)
      ∧ (∀ k, k ∈ key_of <$> new → k ∉ processedPairs).
Proof.
  induction packages as [|pkg rest IH]; intros acc processed.
  - exists [], processed. cbn. rewrite app_nil_r. split; [done|].
    split; [|split; [|split; [|split]]].
    + intros k. rewrite elem_of_nil. tauto.
    + intros pkg []%elem_of_nil.
    + constructor.
    + constructor.
    + intros k []%elem_of_nil.
  - cbn [Processor.processAdvisory_loop].
    case_bool_decide as Hname; cbn [negb].
    2:{ destruct (IH acc processed)
          as (new & p' & -> & Hkeys & Hsat & Hnew & Hnodup & Hfresh).
        exists new, p'. split; [done|]. split; [done|]. split; [|split; [|done]].
        - intros p [->|Hp]%elem_of_cons Hn Ha; [done|]. by apply Hsat.
        - by apply found_in_further. }
    case_bool_decide as Hkey.
    { destruct (IH acc processed)
        as (new & p' & -> & Hkeys & Hsat & Hnew & Hnodup & Hfresh).
      exists new, p'. split; [done|]. split; [done|]. split; [|split; [|done]].
      - intros p [->|Hp]%elem_of_cons Hn Ha; [|by apply Hsat].
        apply Hkeys. by left.
      - by apply found_in_further. }
    rewrite isVersionAffected_returns.
    destruct (affected satisfies _ _) eqn:Haffected; cbn.
    + destruct (IH (acc ++ [Processor.createBunAdvisory advisory pkg])
                  (processed ∪ {[Processor.pairKey advisory pkg]}))
        as (new & p' & -> & Hkeys & Hsat & Hnew & Hnodup & Hfresh).
      exists ((advisory, pkg) :: new), p'.
      split; [|split; [|split; [|split; [|split]]]].
      * rewrite <- app_assoc. reflexivity.
      * intros k. rewrite Hkeys, elem_of_union, elem_of_singleton, fmap_cons,
          elem_of_cons. unfold key_of at 2. cbn. tauto.
      * intros p [->|Hp]%elem_of_cons Hn Ha; [|by apply Hsat].
        apply Hkeys. left. apply elem_of_union_r. by apply elem_of_singleton.
      * constructor; [|by apply found_in_further].
        repeat split; auto. apply list_elem_of_here.
      * rewrite fmap_cons. apply NoDup_cons. split; [|done].
        intros Hin. apply (Hfresh _ Hin). apply elem_of_union_r.
        by apply elem_of_singleton.
      * intros k [->|Hk]%elem_of_cons; [exact Hkey|].
        intros Hin. apply (Hfresh _ Hk). by apply elem_of_union_l.
    + destruct (IH acc processed)
        as (new & p' & -> & Hkeys & Hsat & Hnew & Hnodup & Hfresh).
      exists new, p'. split; [done|]. split; [done|]. split; [|split; [|done]].
      * intros p [->|Hp]%elem_of_cons Hn Ha; [congruence|]. by apply Hsat.
      * by apply found_in_further.
Qed.

Lemma processAdvisory_run advisory packages processedPairs :
  ∃ new processedPairs',
    Processor.processAdvisory satisfies advisory packages processedPairs
    = Returns (record_of <$> new, processedPairs')
    ∧ (∀ k, k ∈ processedPairs' ↔ k ∈ processedPairs ∨ k ∈ key_of <$> new)
    ∧ saturated satisfies [advisory] packages processedPairs'
    ∧ Forall (reportable satisfies [advisory] packages) new
    ∧ NoDup (key_of <$> new)
    ∧ (∀ k, k ∈ key_of <$> new → k ∉ processedPairs).
Proof.
  unfold Processor.processAdvisory.
  assert (Hnone : subject advisory = None →
            ∃ new processedPairs',
              Returns (([] : list Advisory.t), processedPairs)
              = Returns (record_of <$> new, processedPairs')
              ∧ (∀ k, k ∈ processedPairs' ↔ k ∈ processedPairs ∨ k ∈ key_of <$> new)
              ∧ saturated satisfies [advisory] packages processedPairs'
              ∧ Forall (reportable satisfies [advisory] packages) new
              ∧ NoDup (key_of <$> new)
              ∧ (∀ k, k ∈ key_of <$> new → k ∉ processedPairs)).
  { intros Hsubject. exists [], processedPairs. split; [done|].
    split; [|split; [|split; [|split]]].
    - intros k. rewrite fmap_nil, elem_of_nil. tauto.
    - intros m (Hm & _ & Hs & _). apply list_elem_of_singleton in Hm.
      rewrite Hm, Hsubject in Hs. discriminate Hs.
    - constructor.
    - constructor.
    - intros k []%elem_of_nil. }
  destruct (or_else _ _) as [n|] eqn:Hor.
  2:{ apply Hnone. unfold subject. by rewrite Hor. }
  destruct (truthy n) eqn:Htruthy.
  2:{ apply Hnone. unfold subject. by rewrite Hor, Htruthy. }
  assert (Hsubject : subject advisory = Some n).
  { unfold subject. by rewrite Hor, Htruthy. }
  destruct (processAdvisory_loop_run advisory n packages [] processedPairs)
    as (new & p' & -> & Hkeys & Hsat & Hnew & Hnodup & Hfresh).
  exists new, p'. split; [done|]. split; [done|]. split; [|split; [|done]].
  - intros [a p] (Hm & Hp & Hs & Ha). cbn in *.
    apply list_elem_of_singleton in Hm as ->.
    rewrite Hsubject in Hs. injection Hs as ->. by apply Hsat.
  - eapply Forall_impl; [exact Hnew|].
    intros m (Hm & Hin & Hn & Haff). repeat split; auto.
    + rewrite Hm. apply list_elem_of_here.
    + rewrite Hm, Hsubject, Hn. reflexivity.
Qed.

Lemma reportable_cons advisory advisories packages m :
  reportable satisfies (advisory :: advisories) packages m
  ↔ reportable satisfies [advisory] packages m
    ∨ reportable satisfies advisories packages m.
Proof.
  unfold reportable. rewrite elem_of_cons, list_elem_of_singleton. tauto.
Qed.

(** Running the advisory loop over [advisories ++ rest] is running it over
    [rest] from the state that [advisories] leave behind. *)
Lemma processAdvisories_loop_run advisories packages :
  ∀ bunAdvisories processedPairs,
    ∃ new processedPairs',
      (∀ rest,
         Processor.processAdvisories_loop satisfies (advisories ++ rest) packages
           bunAdvisories processedPairs
         = Processor.processAdvisories_loop satisfies rest packages
             (bunAdvisories ++ (record_of <$> new)) processedPairs')
      ∧ (∀ k, k ∈ processedPairs' ↔ k ∈ processedPairs ∨ k ∈ key_of <$> new)
      ∧ saturated satisfies advisories packages processedPairs'
      ∧ Forall (reportable satisfies advisories packages) new
      ∧ NoDup (key_of <$> new)
      ∧ (∀ k, k ∈ key_of <$> new → k ∉ processedPairs).
Proof.
  induction advisories as [|advisory advisories IH]; intros acc processed.
  - exists [], processed. split; [|split; [|split; [|split; [|split]]]].
    + intros rest. cbn. by rewrite app_nil_r.
    + intros k. rewrite fmap_nil, elem_of_nil. tauto.
    + intros m (Hm & _). by apply elem_of_nil in Hm.
    + constructor.
    + constructor.
    + intros k []%elem_of_nil.
  - destruct (processAdvisory_run advisory packages processed)
      as (new & p' & Hrun & Hkeys & Hsat & Hnew & Hnodup & Hfresh).
    destruct (IH (acc ++ (record_of <$> new)) p')
      as (new' & p'' & Hrun' & Hkeys' & Hsat' & Hnew' & Hnodup' & Hfresh').
    exists (new ++ new'), p''. split; [|split; [|split; [|split; [|split]]]].
    + intros rest. cbn [app Processor.processAdvisories_loop].
      rewrite Hrun. cbn. rewrite Hrun', fmap_app, app_assoc. reflexivity.
    + intros k. rewrite Hkeys', Hkeys, fmap_app, elem_of_app. tauto.
    + intros m [Hm|Hm]%reportable_cons.
      * apply Hkeys'. left. by apply Hsat.
      * by apply Hsat'.
    + apply Forall_app. split.
      * eapply Forall_impl; [exact Hnew|]. intros m Hm.
        apply reportable_cons. by left.
      * eapply Forall_impl; [exact Hnew'|]. intros m Hm.
        apply reportable_cons. by right.
    + rewrite fmap_app. apply NoDup_app. split; [done|]. split; [|done].
      intros k Hk Hk'. apply (Hfresh' _ Hk'), Hkeys. by right.
    + intros k. rewrite fmap_app, elem_of_app. intros [Hk|Hk].
      * by apply Hfresh.
      * intros Hin. apply (Hfresh' _ Hk), Hkeys. by left.
Qed.

(** An advisory whose matches are all remembered leaves the state as it is. *)
Lemma processAdvisory_loop_idle advisory n packages bunAdvisories processedPairs :
  (∀ pkg, pkg ∈ packages → Package.name pkg = n →
     affected satisfies (Package.version pkg)
       (NpmAdvisory.vulnerable_versions advisory) = true →
     Processor.pairKey advisory pkg ∈ processedPairs) →
  Processor.processAdvisory_loop satisfies advisory n packages
    bunAdvisories processedPairs
  = Returns (bunAdvisories, processedPairs).
Proof.
  induction packages as [|pkg rest IH]; intros Hsat; [reflexivity|].
  cbn [Processor.processAdvisory_loop].
  assert (Hrest : ∀ p, p ∈ rest → Package.name p = n →
            affected satisfies (Package.version p)
              (NpmAdvisory.vulnerable_versions advisory) = true →
            Processor.pairKey advisory p ∈ processedPairs).
  { intros p Hp. apply Hsat. by apply list_elem_of_further. }
  case_bool_decide as Hname; cbn [negb]; [|by apply IH].
  case_bool_decide as Hkey; [by apply IH|].
  rewrite isVersionAffected_returns.
  destruct (affected satisfies _ _) eqn:Haffected; cbn; [|by apply IH].
  destruct Hkey. apply Hsat; auto. apply list_elem_of_here.
Qed.

Lemma processAdvisory_idle advisory advisories packages processedPairs :
  saturated satisfies advisories packages processedPairs →
  advisory ∈ advisories →
  Processor.processAdvisory satisfies advisory packages processedPairs
  = Returns ([], processedPairs).
Proof.
  intros Hsat Hin. unfold Processor.processAdvisory.
  destruct (or_else _ _) as [n|] eqn:Hor; [|reflexivity].
  destruct (truthy n) eqn:Htruthy; [|reflexivity].
  apply processAdvisory_loop_idle. intros pkg Hpkg Hn Ha.
  apply (Hsat (advisory, pkg)). repeat split; auto. cbn.
  unfold subject. by rewrite Hor, Htruthy, Hn.
Qed.

End ProcessorRuns.

Section ProcessorCoverage.

Variable satisfies : string → string → result bool.

Lemma processAdvisories_run advisories packages :
  ∃ matches,
    Processor.processAdvisories satisfies advisories packages
    = Returns (record_of <$> matches)
    ∧ Forall (reportable satisfies advisories packages) matches
    ∧ (∀ m, reportable satisfies advisories packages m →
            key_of m ∈ key_of <$> matches)
    ∧ NoDup (key_of <$> matches).
Proof.
  unfold Processor.processAdvisories.
  destruct (bool_decide (length advisories = 0) || bool_decide (length packages = 0))
    eqn:Hguard.
  - exists []. split; [done|]. split; [constructor|]. split; [|constructor].
    intros m (Ha & Hp & _). exfalso.
    apply orb_true_iff in Hguard as [Hempty|Hempty];
      apply bool_decide_eq_true in Hempty; apply nil_length_inv in Hempty;
      rewrite Hempty in *; eapply elem_of_nil; eassumption.
  - destruct (processAdvisories_loop_run satisfies advisories packages [] ∅)
      as (new & p' & Hrun & Hkeys & Hsat & Hnew & Hnodup & _).
    specialize (Hrun []). rewrite app_nil_r in Hrun. rewrite Hrun. cbn.
    exists new. split; [done|]. split; [done|]. split; [|done].
    intros m Hm. apply Hsat, Hkeys in Hm as [Hm|Hm]; [|done].
    by apply not_elem_of_empty in Hm.
Qed.

End ProcessorCoverage.

(** The processor misses nothing: its records stand for reportable
    matches only, and for every advisory of the response and every installed
    package that the advisory names and whose version lies in the vulnerable
    range, a record is returned under the key of that advisory and package. *)
Theorem processAdvisories_reports_every_match
    (satisfies : string → string → result bool)
    (advisories : list NpmAdvisory.t) (packages : list Package.t) :
  ∃ matches,
    Processor.processAdvisories satisfies advisories packages
    = Returns (record_of <$> matches)
    ∧ Forall (reportable satisfies advisories packages) matches
    ∧ ∀ advisory pkg,
        advisory ∈ advisories → pkg ∈ packages →
        subject advisory = Some (Package.name pkg) →
        affected satisfies (Package.version pkg)
          (NpmAdvisory.vulnerable_versions advisory) = true →
        ∃ m, m ∈ matches
             ∧ Processor.pairKey m.1 m.2 = Processor.pairKey advisory pkg.
Proof.
  destruct (processAdvisories_run satisfies advisories packages)
    as (matches & Hrun & Hsound & Hcomplete & _).
  exists matches. split; [done|]. split; [done|].
  intros advisory pkg Ha Hp Hs Hv.
  destruct (proj1 (list_elem_of_fmap _ _ _) (Hcomplete (advisory, pkg) ltac:(done)))
    as (m & Hkey & Hm).
  exists m. split; [done|]. symmetry. exact Hkey.
Qed.

(** An advisory that occurs again later in the response adds nothing:
    dropping the later occurrence leaves the result of the processor as it
    is. *)
Theorem processAdvisories_repeated_advisory
    (satisfies : string → string → result bool)
    (advisory : NpmAdvisory.t) (before after : list NpmAdvisory.t)
    (packages : list Package.t) :
  advisory ∈ before →
  Processor.processAdvisories satisfies (before ++ advisory :: after) packages
  = Processor.processAdvisories satisfies (before ++ after) packages.
Proof.
  intros Hin. unfold Processor.processAdvisories.
  assert (Hlen : ∀ l, bool_decide (length (before ++ l) = 0) = false).
  { intros l. apply bool_decide_eq_false. rewrite length_app.
    destruct before; [by apply elem_of_nil in Hin|]. cbn. lia. }
  rewrite !Hlen. cbn [orb]. destruct (bool_decide (length packages = 0)); [done|].
  destruct (processAdvisories_loop_run satisfies before packages [] ∅)
    as (new & p' & Hrun & _ & Hsat & _).
  rewrite !Hrun. cbn [Processor.processAdvisories_loop].
  rewrite (processAdvisory_idle satisfies advisory before packages p' Hsat Hin).
  cbn. by rewrite app_nil_r.
Qed.

Lemma processAdvisories_repeated_advisory_witness :
  Processor.processAdvisories Semver.satisfies
    ([Registry.lodash_advisory; Fixtures.wildcard_advisory]
     ++ Registry.lodash_advisory :: [Fixtures.range_advisory])
    [Fixtures.package "lodash" "4.17.20" "^4.17.0"]
  = Processor.processAdvisories Semver.satisfies
      ([Registry.lodash_advisory; Fixtures.wildcard_advisory]
       ++ [Fixtures.range_advisory])
      [Fixtures.package "lodash" "4.17.20" "^4.17.0"].
Proof.
  apply processAdvisories_repeated_advisory. apply list_elem_of_here.
Defined.

(** Advisories are worked off in the order of the response: the
    records for the advisories at its beginning are the beginning of the
    result, whatever follows them. *)
Theorem processAdvisories_prefix
    (satisfies : string → string → result bool)
    (advisories more : list NpmAdvisory.t) (packages : list Package.t) :
  ∃ records further,
    Processor.processAdvisories satisfies advisories packages = Returns records
    ∧ Processor.processAdvisories satisfies (advisories ++ more) packages
      = Returns (records ++ further).
Proof.
  destruct advisories as [|advisory advisories].
  { destruct (processAdvisories_run satisfies more packages) as (matches & Hrun & _).
    exists [], (record_of <$> matches). split; [|exact Hrun].
    unfold Processor.processAdvisories. by destruct packages. }
  unfold Processor.processAdvisories. cbn [length app].
  rewrite !(bool_decide_eq_false_2 (S _ = 0)) by lia. cbn [orb].
  destruct (bool_decide (length packages = 0)); [by exists [], []|].
  destruct (processAdvisories_loop_run satisfies (advisory :: advisories) packages [] ∅)
    as (new & p' & Hrun & _).
  destruct (processAdvisories_loop_run satisfies more packages ([] ++ (record_of <$> new)) p')
    as (new' & p'' & Hrun' & _).
  exists (record_of <$> new), (record_of <$> new'). split.
  - specialize (Hrun []). rewrite app_nil_r in Hrun. rewrite Hrun. reflexivity.
  - change (advisory :: advisories ++ more) with ((advisory :: advisories) ++ more).
    rewrite Hrun. specialize (Hrun' []). rewrite app_nil_r in Hrun'.
    rewrite Hrun'. reflexivity.
Qed.

Lemma elem_of_candidates satisfies advisories packages (m : match_) :
  m ∈ candidates satisfies advisories packages
  ↔ reportable satisfies advisories packages m.
Proof.
  unfold candidates, reportable.
  rewrite list_elem_of_filter, list_elem_of_cprod. tauto.
Qed.

(** The processor returns as many records as the pairs it may report have
    distinct keys: no pair is reported twice and none is left out, however
    many advisories concern one package. *)
Theorem processAdvisories_count
    (satisfies : string → string → result bool)
    (advisories : list NpmAdvisory.t) (packages : list Package.t) :
  ∃ records,
    Processor.processAdvisories satisfies advisories packages = Returns records
    ∧ length records
      = size (list_to_set (key_of <$> candidates satisfies advisories packages)
              : gset string).
Proof.
  destruct (processAdvisories_run satisfies advisories packages)
    as (matches & -> & Hsound & Hcomplete & Hnodup).
  eexists. split; [reflexivity|].
  rewrite length_fmap, <- (length_fmap key_of), <- (size_list_to_set (C := gset string))
    by done.
  f_equal. apply set_eq. intros k. rewrite !elem_of_list_to_set. split.
  - intros (m & -> & Hm)%list_elem_of_fmap. apply list_elem_of_fmap_2.
    apply elem_of_candidates. by eapply Forall_forall in Hsound.
  - intros (m & -> & Hm)%list_elem_of_fmap. by apply Hcomplete, elem_of_candidates.
Qed.

(** ** A package that is installed twice *)

Lemma deduplicatePackages_loop_app packages rest :
  ∀ packageMap,
    Client.deduplicatePackages_loop (packages ++ rest) packageMap
    = Client.deduplicatePackages_loop rest
        (Client.deduplicatePackages_loop packages packageMap).
Proof.
  induction packages as [|pkg packages IH]; intros packageMap; [reflexivity|].
  cbn [app Client.deduplicatePackages_loop]. by destruct (negb _).
Qed.

Lemma deduplicatePackages_repeated before dup after :
  Client.packageKey dup ∈ Client.packageKey <$> before →
  Client.deduplicatePackages (before ++ dup :: after)
  = Client.deduplicatePackages (before ++ after).
Proof.
  intros Hkey. unfold Client.deduplicatePackages.
  rewrite !deduplicatePackages_loop_app. cbn [Client.deduplicatePackages_loop].
  destruct (deduplicatePackages_loop_spec before []) as (_ & _ & Hkeys & _).
  { constructor. }
  { intros entry []%elem_of_nil. }
  rewrite bool_decide_eq_true_2; [reflexivity|].
  apply Hkeys. by right.
Qed.

Section RepeatedPackage.

Variable satisfies : string → string → result bool.

Lemma processAdvisory_loop_app advisory n packages :
  ∀ bunAdvisories processedPairs,
    ∃ bunAdvisories' processedPairs',
      (∀ rest,
         Processor.processAdvisory_loop satisfies advisory n (packages ++ rest)
           bunAdvisories processedPairs
         = Processor.processAdvisory_loop satisfies advisory n rest
             bunAdvisories' processedPairs')
      ∧ (∀ k, k ∈ processedPairs → k ∈ processedPairs')
      ∧ ∀ pkg, pkg ∈ packages → Package.name pkg = n →
          affected satisfies (Package.version pkg)
            (NpmAdvisory.vulnerable_versions advisory) = true →
          Processor.pairKey advisory pkg ∈ processedPairs'.
Proof.
  induction packages as [|pkg packages IH]; intros acc processed.
  - exists acc, processed. split; [done|]. split; [done|].
    intros pkg []%elem_of_nil.
  - cbn [app Processor.processAdvisory_loop].
    case_bool_decide as Hname; cbn [negb].
    2:{ destruct (IH acc processed) as (acc' & p' & Hrun & Hmono & Hsat).
        exists acc', p'. split; [done|]. split; [done|].
        intros p [->|Hp]%elem_of_cons Hn Ha; [done|]. by apply Hsat. }
    case_bool_decide as Hkey.
    { destruct (IH acc processed) as (acc' & p' & Hrun & Hmono & Hsat).
      exists acc', p'. split; [done|]. split; [done|].
      intros p [->|Hp]%elem_of_cons Hn Ha; [by apply Hmono|]. by apply Hsat. }
    rewrite isVersionAffected_returns.
    destruct (affected satisfies _ _) eqn:Haffected; cbn.
    + destruct (IH (acc ++ [Processor.createBunAdvisory advisory pkg])
                  (processed ∪ {[Processor.pairKey advisory pkg]}))
        as (acc' & p' & Hrun & Hmono & Hsat).
      exists acc', p'. split; [done|]. split.
      * intros k Hk. by apply Hmono, elem_of_union_l.
      * intros p [->|Hp]%elem_of_cons Hn Ha; [|by apply Hsat].
        apply Hmono, elem_of_union_r. by apply elem_of_singleton.
    + destruct (IH acc processed) as (acc' & p' & Hrun & Hmono & Hsat).
      exists acc', p'. split; [done|]. split; [done|].
      intros p [->|Hp]%elem_of_cons Hn Ha; [congruence|]. by apply Hsat.
Qed.

Lemma processAdvisory_loop_repeated advisory n before pkg dup after :
  pkg ∈ before →
  Package.name dup = Package.name pkg →
  Package.version dup = Package.version pkg →
  ∀ bunAdvisories processedPairs,
    Processor.processAdvisory_loop satisfies advisory n (before ++ dup :: after)
      bunAdvisories processedPairs
    = Processor.processAdvisory_loop satisfies advisory n (before ++ after)
        bunAdvisories processedPairs.
Proof.
  intros Hpkg Hname Hversion acc processed.
  destruct (processAdvisory_loop_app advisory n before acc processed)
    as (acc' & p' & Hrun & _ & Hsat).
  rewrite !Hrun. cbn [Processor.processAdvisory_loop].
  case_bool_decide as Hn; cbn [negb]; [|reflexivity].
  case_bool_decide as Hkey; [reflexivity|].
  rewrite isVersionAffected_returns.
  destruct (affected satisfies _ _) eqn:Haffected; cbn; [|reflexivity].
  destruct Hkey. rewrite (pairKey_same_package advisory pkg dup Hname Hversion).
  apply Hsat; [done|congruence|by rewrite <- Hversion].
Qed.

Lemma processAdvisories_repeated_package advisories before pkg dup after :
  pkg ∈ before →
  Package.name dup = Package.name pkg →
  Package.version dup = Package.version pkg →
  Processor.processAdvisories satisfies advisories (before ++ dup :: after)
  = Processor.processAdvisories satisfies advisories (before ++ after).
Proof.
  intros Hpkg Hname Hversion. unfold Processor.processAdvisories.
  assert (Hlen : ∀ l, bool_decide (length (before ++ l) = 0) = false).
  { intros l. apply bool_decide_eq_false. rewrite length_app.
    destruct before; [by apply elem_of_nil in Hpkg|]. cbn. lia. }
  rewrite !Hlen, !orb_false_r. destruct (bool_decide (length advisories = 0)); [done|].
  cbn [orb]. generalize (∅ : gset string) as processed.
  generalize ([] : list Advisory.t) as acc.
  induction advisories as [|advisory advisories IH]; intros acc processed; [done|].
  cbn [Processor.processAdvisories_loop].
  assert (Hsame :
    Processor.processAdvisory satisfies advisory (before ++ dup :: after) processed
    = Processor.processAdvisory satisfies advisory (before ++ after) processed).
  { unfold Processor.processAdvisory. destruct (or_else _ _) as [n|]; [|done].
    destruct (truthy n); [|done].
    by apply (processAdvisory_loop_repeated advisory n before pkg). }
  rewrite Hsame.
  destruct (Processor.processAdvisory satisfies advisory (before ++ after) processed)
    as [[records processed']| |]; cbn; [apply IH|done..].
Qed.

End RepeatedPackage.

(** A package that is installed a second time, under the same name and
    at the same version, changes nothing: the scan sends the same requests and
    returns the same records as without the repetition. *)
Theorem scan_repeated_package
    (satisfies : string → string → result bool)
    (respond : sent → NpmAuditRequest → result json)
    (before after : list Package.t) (pkg dup : Package.t) (w : sent) :
  pkg ∈ before →
  Package.name dup = Package.name pkg →
  Package.version dup = Package.version pkg →
  Scanner.scan satisfies respond (before ++ dup :: after) w
  = Scanner.scan satisfies respond (before ++ after) w.
Proof.
  intros Hpkg Hname Hversion. rewrite !scan_run.
  assert (Hquery :
    Client.queryVulnerabilities NPM_AUDIT_API respond (before ++ dup :: after) w
    = Client.queryVulnerabilities NPM_AUDIT_API respond (before ++ after) w).
  { unfold Client.queryVulnerabilities.
    rewrite deduplicatePackages_repeated.
    2:{ unfold Client.packageKey. rewrite Hname, Hversion.
        by apply (list_elem_of_fmap_2 Client.packageKey). }
    rewrite !(bool_decide_eq_false_2 (length (before ++ _) = 0)); [done|..];
      rewrite length_app; destruct before; cbn; try lia;
      by apply elem_of_nil in Hpkg. }
  rewrite Hquery. unfold answer.
  destruct (Client.queryVulnerabilities NPM_AUDIT_API respond (before ++ after) w).1;
    [|done..].
  by rewrite (processAdvisories_repeated_package satisfies _ before pkg dup after).
Qed.

Lemma scan_repeated_package_witness :
  Scanner.scan Semver.satisfies Registry.respond
    ([Fixtures.package "lodash" "4.17.20" "^4.0.0"]
     ++ Fixtures.package "lodash" "4.17.20" "^4.17.0" :: []) []
  = Scanner.scan Semver.satisfies Registry.respond
      ([Fixtures.package "lodash" "4.17.20" "^4.0.0"] ++ []) [].
Proof.
  apply (scan_repeated_package Semver.satisfies Registry.respond
           [Fixtures.package "lodash" "4.17.20" "^4.0.0"] []
           (Fixtures.package "lodash" "4.17.20" "^4.0.0")).
  - apply list_elem_of_here.
  - reflexivity.
  - reflexivity.
Defined.

(** ** What a record shows *)

Lemma trimStart_starts s : starts_with_white_space (trimStart s) = false.
Proof.
  induction s as [|c s IH]; [reflexivity|]. cbn.
  destruct (is_white_space c) eqn:Hc; [exact IH|]. cbn. exact Hc.
Qed.

Lemma trimEnd_starts s :
  starts_with_white_space s = false → starts_with_white_space (trimEnd s) = false.
Proof.
  destruct s as [|c s]; [done|]. cbn. intros Hc.
  destruct (trimEnd s); [by rewrite Hc|exact Hc].
Qed.

Lemma trimEnd_ends s : ends_with_white_space (trimEnd s) = false.
Proof.
  induction s as [|c s IH]; [reflexivity|]. cbn.
  destruct (trimEnd s) as [|c' t] eqn:Ht.
  - destruct (is_white_space c) eqn:Hc; [reflexivity|]. cbn. exact Hc.
  - exact IH.
Qed.

Lemma trimmed_tidy value text : Processor.trimmed value = Some text → tidy text.
Proof.
  unfold Processor.trimmed. destruct value as [s|]; [|done].
  destruct (truthy (trim s)) eqn:Htruthy; [|done]. intros [= <-].
  split; [|split].
  - intros Hempty. by rewrite Hempty in Htruthy.
  - apply trimEnd_starts, trimStart_starts.
  - apply trimEnd_ends.
Qed.

Lemma source_text_tidy advisory text : source_text advisory = Some text → tidy text.
Proof.
  unfold source_text.
  destruct (Processor.trimmed (NpmAdvisory.overview advisory)) as [overview|] eqn:Ho.
  - intros [= <-]. by eapply trimmed_tidy.
  - apply trimmed_tidy.
Qed.

Lemma is_sentence_end_not_white_space c :
  Processor.is_sentence_end c = true → is_white_space c = false.
Proof.
  unfold Processor.is_sentence_end. intros Hc.
  repeat (apply orb_true_iff in Hc as [Hc|Hc]);
    apply bool_decide_eq_true in Hc; by subst c.
Qed.

Lemma firstSentence_tidy text sentence :
  starts_with_white_space text = false →
  Processor.firstSentence text = Some sentence → tidy sentence.
Proof.
  revert sentence. induction text as [|c text IH]; intros sentence Hstart; [done|].
  cbn [Processor.firstSentence].
  destruct (Processor.is_sentence_end c) eqn:Hc.
  - intros [= <-]. apply is_sentence_end_not_white_space in Hc.
    repeat split; [done|exact Hc|exact Hc].
  - destruct (Processor.firstSentence text) as [rest|] eqn:Hrest; [|done].
    intros [= <-]. split; [done|]. split; [exact Hstart|].
    assert (Hends : ∀ s r, Processor.firstSentence s = Some r →
                           r ≠ "" ∧ ends_with_white_space r = false).
    { clear. induction s as [|a s IHs]; intros r; [done|]. cbn.
      destruct (Processor.is_sentence_end a) eqn:Ha.
      - intros [= <-]. split; [done|]. by apply is_sentence_end_not_white_space.
      - destruct (Processor.firstSentence s) as [r'|]; [|done]. intros [= <-].
        destruct (IHs r' eq_refl) as [Hne Hr']. split; [done|].
        destruct r'; [done|exact Hr']. }
    destruct (Hends text rest Hrest) as [Hne Hr]. destruct rest; [done|exact Hr].
Qed.

Lemma ends_with_white_space_append (s t : string) :
  t ≠ "" → ends_with_white_space (s +:+ t) = ends_with_white_space t.
Proof.
  intros Ht. induction s as [|c s IH]; [reflexivity|].
  change (String c s +:+ t) with (String c (s +:+ t)).
  cbn [ends_with_white_space]. destruct (s +:+ t) eqn:Hst; [|exact IH].
  destruct s; [by destruct t|discriminate Hst].
Qed.

Lemma truncated_tidy text :
  tidy text →
  MAX_DESCRIPTION_LENGTH SECURITY < String.length text →
  tidy (JS.substring text 0 (MAX_DESCRIPTION_LENGTH SECURITY - 3) +:+ "...").
Proof.
  intros (_ & Hstart & _) Hlong. split; [|split].
  - intros Hempty. apply (f_equal String.length) in Hempty.
    rewrite length_append in Hempty. cbn in Hempty. lia.
  - destruct text as [|c text]; [cbn in Hlong; lia|]. exact Hstart.
  - by rewrite ends_with_white_space_append.
Qed.

Lemma getAdvisoryDescription_tidy advisory description :
  Processor.getAdvisoryDescription advisory = Some description → tidy description.
Proof.
  intros Hdescription.
  pose proof (getAdvisoryDescription_path advisory) as Hpath.
  rewrite Hdescription in Hpath.
  inversion Hpath as [text Hsource _|overview sentence Hoverview _ Hsentence _
                     |text Hsource Hlong _|]; subst.
  - by eapply source_text_tidy.
  - eapply firstSentence_tidy; [|exact Hsentence].
    by apply trimmed_tidy in Hoverview as (_ & ? & _).
  - apply truncated_tidy; [|done]. by eapply source_text_tidy.
Qed.

(** Every record the processor returns has a message, names an installed
    package, and has a description that, when there is one, is not blank
    and carries no white space at its beginning or its end. *)
Theorem processAdvisories_records_presentable
    (satisfies : string → string → result bool)
    (advisories : list NpmAdvisory.t) (packages : list Package.t) :
  ∃ records,
    Processor.processAdvisories satisfies advisories packages = Returns records
    ∧ Forall (λ record,
                Advisory.message record ≠ ""
                ∧ Advisory.package record ∈ Package.name <$> packages
                ∧ ∀ description,
                    Advisory.description record = Some description →
                    tidy description)
        records.
Proof.
  destruct (processAdvisories_spec satisfies advisories packages)
    as (matches & -> & _ & Hmatches).
  eexists. split; [reflexivity|].
  apply Forall_fmap. eapply Forall_impl; [exact Hmatches|].
  intros [advisory pkg] (_ & Hpkg & _). cbn in Hpkg. split; [|split].
  - cbn. destruct (truthy (NpmAdvisory.title advisory)) eqn:Htitle.
    + intros Hempty. by rewrite Hempty in Htitle.
    + discriminate.
  - cbn. by apply list_elem_of_fmap_2.
  - cbn. apply getAdvisoryDescription_tidy.
Qed.

(** ** The two shapes of a response exclude each other *)

Lemma field_elem_of fields key value :
  field fields key = Some value → (key, value) ∈ fields.
Proof.
  induction fields as [|[k v] fields IH]; cbn; [done|].
  case_bool_decide as Hk.
  - intros [= ->]. subst k. apply list_elem_of_here.
  - intros Hfield. by apply list_elem_of_further, IH.
Qed.

Lemma mapM_Ok_elem_of {A B} (f : A → result B) (l : list A) (r : list B) x :
  mapM f l = Ok r → x ∈ l → ∃ y, f x = Ok y.
Proof.
  revert r. induction l as [|a l IH]; intros r Hr Hx; [by apply elem_of_nil in Hx|].
  cbn in Hr. destruct (f a) as [b|e] eqn:Hfa; [|discriminate Hr]. cbn in Hr.
  destruct (mapM f l) as [bs|e]; [|discriminate Hr].
  apply elem_of_cons in Hx as [->|Hx]; [by exists b|]. by apply (IH bs).
Qed.

(** Every property of a body of shape (a) is an advisory. *)
Lemma NpmAuditResponseSchema_elem_of fields advisories key value :
  NpmAuditResponseSchema (Some (JObject fields)) = Ok advisories →
  (key, value) ∈ fields →
  ∃ advisory, NpmAdvisorySchema (Some value) = Ok advisory.
Proof.
  unfold NpmAuditResponseSchema, z_record. intros Hfields Hin.
  destruct (mapM_Ok_elem_of _ _ _ _ Hfields Hin) as ([k advisory] & Hvalue).
  cbn in Hvalue. destruct (NpmAdvisorySchema (Some value)) as [a|e]; [|discriminate].
  by exists a.
Qed.

(** An advisory is an object whose [id] is a string or a number. *)
Lemma NpmAdvisorySchema_id value advisory :
  NpmAdvisorySchema (Some value) = Ok advisory →
  ∃ fields id,
    value = JObject fields ∧ field fields "id" = Some id
    ∧ ((∃ s, id = JString s) ∨ (∃ n, id = JNumber n)).
Proof.
  unfold NpmAdvisorySchema, z_object.
  destruct value as [| | | | |fields]; try discriminate.
  destruct (field fields "id") as [id|] eqn:Hid; [|discriminate].
  destruct id; try discriminate; intros _; exists fields; eexists;
    (split; [reflexivity|]); (split; [exact Hid|]); eauto.
Qed.

(** No body has both shapes: when a body validates as shape (a) it does
    not validate as shape (b), so the fallback of [executeBulkQuery] decides
    nothing that its first attempt has decided. *)
Theorem response_shapes_exclusive (data : json) :
  accepts NpmAuditResponseSchema data = true →
  accepts NpmAuditResponseAltSchema data = false.
Proof.
  unfold accepts.
  destruct (NpmAuditResponseSchema (Some data)) as [advisories|] eqn:Ha; [|done].
  destruct (NpmAuditResponseAltSchema (Some data)) as [alt|] eqn:Hb; [|done].
  intros _. exfalso.
  apply NpmAuditResponseAltSchema_Ok in Hb as (fields & inner & -> & Hinner & Hb & _).
  apply field_elem_of in Hinner.
  destruct (NpmAuditResponseSchema_elem_of _ _ _ _ Ha Hinner) as (advisory & Hadvisory).
  apply NpmAdvisorySchema_id in Hadvisory as (xs & id & -> & Hid & Hkind).
  apply field_elem_of in Hid.
  destruct (NpmAuditResponseSchema_elem_of _ _ _ _ Hb Hid) as (nested & Hnested).
  apply NpmAdvisorySchema_id in Hnested as (ys & _ & -> & _).
  by destruct Hkind as [[s [=]]|[n [=]]].
Qed.

Lemma response_shapes_exclusive_witness :
  accepts NpmAuditResponseAltSchema Registry.lodash_body = false.
Proof. apply response_shapes_exclusive. reflexivity. Defined.

(** ** The requests of a query *)

Lemma ceil_div_one n k : 0 < n → n ≤ k → ceil_div n k = 1.
Proof.
  intros Hn Hk. unfold ceil_div. symmetry.
  apply (Nat.div_unique _ _ _ (n - 1)); lia.
Qed.

(** A list that fits into one batch is its only batch; the empty list has
    none. *)
Lemma batches_whole {A} (k : nat) (l : list A) :
  length l ≤ k → batches k l = if bool_decide (l = []) then [] else [l].
Proof.
  intros Hk. unfold batches. case_bool_decide as Hempty.
  - subst l. cbn [length]. unfold ceil_div.
    destruct k as [|k]; [reflexivity|].
    replace (0 + S k - 1) with k by lia. by rewrite Nat.div_small by lia.
  - rewrite ceil_div_one; [|destruct l; [done|cbn; lia]|done].
    cbn. unfold slice. by rewrite Nat.sub_0_r, drop_0, take_ge.
Qed.

Lemma deduplicatePackages_nil packages :
  Client.deduplicatePackages packages = [] → packages = [].
Proof.
  intros Hunique.
  destruct (deduplicatePackages_spec packages) as (_ & Hkeys & _).
  rewrite Hunique in Hkeys. destruct packages as [|pkg packages]; [done|].
  exfalso. apply (elem_of_nil (Client.packageKey pkg)), Hkeys, list_elem_of_here.
Qed.

Section Requests.

Variable api : NPM_AUDIT_API_t.
Variable respond : sent → NpmAuditRequest → result json.

(** What a query does, in terms of its bulk queries: one per batch of the
    deduplicated packages; the outcome of the only one when there is no
    need for batches, and what the successful ones found otherwise. *)
Lemma queryVulnerabilities_run packages w :
  0 < MAX_PACKAGES_PER_REQUEST api →
  Forall plain_name (Client.deduplicatePackages packages) →
  ∃ payloads : sent,
    Forall2 (λ batch payload, Client.buildRequestPayload batch = Returns payload)
      (batches (MAX_PACKAGES_PER_REQUEST api) (Client.deduplicatePackages packages))
      payloads
    ∧ (Client.queryVulnerabilities api respond packages w).2 = w ++ payloads
    ∧ (Client.queryVulnerabilities api respond packages w).1
      = if bool_decide (MAX_PACKAGES_PER_REQUEST api
                        < length (Client.deduplicatePackages packages))
        then Returns (concat (surviving <$> batch_outcomes respond payloads w))
        else match batch_outcomes respond payloads w with
             | [] => Returns []
             | outcome :: _ => outcome
             end.
Proof.
  intros Hk Hunique.
  destruct (buildRequestPayload_spec _ Hunique) as (payload & Hpayload & _).
  case_bool_decide as Hmany.
  - rewrite (queryVulnerabilities_batched api respond packages payload w Hpayload Hmany).
    destruct (queryInBatches_spec api respond _ w Hk Hunique)
      as (payloads & Hpayloads & ->).
    by exists payloads.
  - rewrite batches_whole by lia. case_bool_decide as Hempty.
    + apply deduplicatePackages_nil in Hempty as ->.
      exists []. split; [constructor|]. by rewrite app_nil_r.
    + assert (Hpackages : packages ≠ []) by (by intros ->).
      rewrite (queryVulnerabilities_unbatched api respond packages payload w
                 Hpackages Hpayload) by lia.
      exists [payload]. split; [by repeat constructor|].
      by rewrite executeBulkQuery_sent.
Qed.

End Requests.

(** What the payloads of the batches ask about, between them. *)
Lemma payloads_cover (k : nat) (packages : list Package.t) (payloads : sent) :
  0 < k →
  Forall plain_name packages →
  Forall2 (λ batch payload, Client.buildRequestPayload batch = Returns payload)
    (batches k packages) payloads →
  ∀ name version,
    (∃ payload, payload ∈ payloads ∧ requests payload name version)
    ↔ ∃ pkg, pkg ∈ packages ∧ Package.name pkg = name ∧ Package.version pkg = version.
Proof.
  intros Hk Hplain Hpayloads name version.
  pose (api := {| MAX_RETRY_ATTEMPTS := 0; MAX_PACKAGES_PER_REQUEST := k |}).
  split.
  - intros (p & Hp & Hnv).
    apply list_elem_of_lookup in Hp as (i & Hi).
    destruct (Forall2_lookup_r _ _ _ _ _ Hpayloads Hi) as (batch & Hbatch & Hbuild).
    apply list_elem_of_lookup_2 in Hbatch.
    destruct (proj1 (batch_requests api _ batch p name version Hplain Hbatch Hbuild) Hnv)
      as (pkg & Hpkg & Hname & Hversion).
    exists pkg. split; [|done].
    rewrite <- (concat_batches k _ Hk). apply elem_of_concat. by exists batch.
  - intros (pkg & Hpkg & <- & <-).
    rewrite <- (concat_batches k _ Hk) in Hpkg.
    apply elem_of_concat in Hpkg as (batch & Hbatch & Hpkg).
    apply list_elem_of_lookup in Hbatch as (i & Hi).
    destruct (Forall2_lookup_l _ _ _ _ _ Hpayloads Hi) as (p & Hp & Hbuild).
    exists p. split; [by eapply list_elem_of_lookup_2|].
    apply list_elem_of_lookup_2 in Hi.
    apply (batch_requests api _ batch p _ _ Hplain Hi Hbuild). by exists pkg.
Qed.

(** When no deduplicated package is named like a member of
    [Object.prototype], the requests of a query ask, between them, about the
    deduplicated packages and about nothing else: [⌈N/K⌉] requests for [N] of
    them, one per batch and in the order of the batches. *)
Theorem queryVulnerabilities_requests
    (api : NPM_AUDIT_API_t) (respond : sent → NpmAuditRequest → result json)
    (packages : list Package.t) (w : sent) :
  0 < MAX_PACKAGES_PER_REQUEST api →
  Forall plain_name (Client.deduplicatePackages packages) →
  ∃ payloads : sent,
    (Client.queryVulnerabilities api respond packages w).2 = w ++ payloads
    ∧ Forall2 (λ batch payload, Client.buildRequestPayload batch = Returns payload)
        (batches (MAX_PACKAGES_PER_REQUEST api) (Client.deduplicatePackages packages))
        payloads
    ∧ length payloads
      = ceil_div (length (Client.deduplicatePackages packages))
          (MAX_PACKAGES_PER_REQUEST api)
    ∧ ∀ name version,
        (∃ payload, payload ∈ payloads ∧ requests payload name version)
        ↔ ∃ pkg, pkg ∈ Client.deduplicatePackages packages
                 ∧ Package.name pkg = name ∧ Package.version pkg = version.
Proof.
  intros Hk Hunique.
  destruct (queryVulnerabilities_run api respond packages w Hk Hunique)
    as (payloads & Hpayloads & Hsent & _).
  exists payloads. split; [done|]. split; [done|]. split.
  - by rewrite <- (Forall2_length _ _ _ Hpayloads), length_batches.
  - by apply (payloads_cover (MAX_PACKAGES_PER_REQUEST api)).
Qed.

Lemma queryVulnerabilities_requests_witness :
  ∃ payloads : sent,
    (Client.queryVulnerabilities Registry.small_batches Registry.respond
       (Registry.lodash_versions 5) []).2 = [] ++ payloads
    ∧ length payloads = 3.
Proof.
  destruct (queryVulnerabilities_requests Registry.small_batches Registry.respond
              (Registry.lodash_versions 5) [])
    as (payloads & Hsent & _ & Hlength & _).
  - cbn. lia.
  - apply (bool_decide_unpack _). vm_compute. exact I.
  - exists payloads. split; [exact Hsent|]. rewrite Hlength. reflexivity.
Defined.

Lemma batch_outcomes_down (respond : sent → NpmAuditRequest → result json) e :
  (∀ w payload, respond w payload = Err e) →
  ∀ payloads w,
    batch_outcomes respond payloads w = (λ _, Throws e) <$> payloads.
Proof.
  intros Hdown. induction payloads as [|payload payloads IH]; intros w; [done|].
  cbn [batch_outcomes fmap list_fmap]. rewrite IH.
  by rewrite executeBulkQuery_run, Hdown.
Qed.

(** While the registry fails every request and the batch size is
    positive: a query for no package returns the empty list; a query with a
    deduplicated package named like a member of [Object.prototype] throws the
    [TypeError] of the payload; of the others, a query that fits into one
    request throws the registry's error, and a query that is split into
    batches returns the empty list. *)
Theorem queryVulnerabilities_registry_down
    (api : NPM_AUDIT_API_t) (respond : sent → NpmAuditRequest → result json)
    (e : exn) (packages : list Package.t) (w : sent) :
  0 < MAX_PACKAGES_PER_REQUEST api →
  (∀ w payload, respond w payload = Err e) →
  (Client.queryVulnerabilities api respond packages w).1
  = if bool_decide (packages = []) then Returns []
    else if bool_decide (Forall plain_name (Client.deduplicatePackages packages))
         then if bool_decide (MAX_PACKAGES_PER_REQUEST api
                              < length (Client.deduplicatePackages packages))
              then Returns []
              else Throws e
         else Throws (TypeError "versions.includes is not a function").
Proof.
  intros Hk Hdown.
  destruct (decide (packages = [])) as [->|Hempty]; [reflexivity|].
  rewrite (bool_decide_eq_false_2 (packages = [])) by done.
  destruct (decide (Forall plain_name (Client.deduplicatePackages packages)))
    as [Hplain|Hinherited].
  - rewrite (bool_decide_eq_true_2 (Forall _ _)) by done.
    destruct (queryVulnerabilities_run api respond packages w Hk Hplain)
      as (payloads & Hpayloads & _ & ->).
    rewrite (batch_outcomes_down respond e Hdown).
    case_bool_decide as Hmany.
    + f_equal. clear. induction payloads as [|payload payloads IH]; [done|].
      cbn. exact IH.
    + rewrite batches_whole in Hpayloads by lia.
      rewrite bool_decide_eq_false_2 in Hpayloads.
      2:{ intros Hnil%deduplicatePackages_nil. done. }
      apply Forall2_cons_inv_l in Hpayloads as (payload & rest & _ & _ & ->).
      reflexivity.
  - rewrite (bool_decide_eq_false_2 (Forall _ _)) by done.
    apply not_Forall_Exists in Hinherited; [|apply _].
    unfold Client.queryVulnerabilities.
    rewrite bool_decide_eq_false_2 by (by destruct packages).
    by rewrite (buildRequestPayload_inherited _ Hinherited).
Qed.

Lemma queryVulnerabilities_registry_down_witness :
  (Client.queryVulnerabilities Registry.small_batches Registry.unreachable
     (Registry.lodash_versions 2) []).1
  = Throws (Error "npm registry returned 503: Service Unavailable")
  ∧ (Client.queryVulnerabilities Registry.small_batches Registry.unreachable
       (Registry.lodash_versions 3) []).1
    = Returns []
  ∧ (Client.queryVulnerabilities Registry.small_batches Registry.unreachable
       [Fixtures.package "constructor" "1.0.0" "^1.0.0"] []).1
    = Throws (TypeError "versions.includes is not a function").
Proof.
  split; [|split].
  - rewrite (queryVulnerabilities_registry_down Registry.small_batches
               Registry.unreachable
               (Error "npm registry returned 503: Service Unavailable")
               (Registry.lodash_versions 2) []);
      [reflexivity|cbn; lia|done].
  - rewrite (queryVulnerabilities_registry_down Registry.small_batches
               Registry.unreachable
               (Error "npm registry returned 503: Service Unavailable")
               (Registry.lodash_versions 3) []);
      [reflexivity|cbn; lia|done].
  - rewrite (queryVulnerabilities_registry_down Registry.small_batches
               Registry.unreachable
               (Error "npm registry returned 503: Service Unavailable")
               [Fixtures.package "constructor" "1.0.0" "^1.0.0"] []);
      [reflexivity|cbn; lia|done].
Defined.

(** ** Which packages survive deduplication *)

Lemma deduplicatePackages_loop_first packages :
  ∀ packageMap,
    ∃ new,
      Client.deduplicatePackages_loop packages packageMap = packageMap ++ new
      ∧ new.*2 `sublist_of` packages
      ∧ ∀ before pkg after,
          packages = before ++ pkg :: after →
          Client.packageKey pkg ∉ packageMap.*1 →
          Client.packageKey pkg ∉ Client.packageKey <$> before →
          pkg ∈ new.*2.
Proof.
  induction packages as [|p rest IH]; intros packageMap.
  - exists []. rewrite app_nil_r. split; [done|]. split; [done|].
    intros [|? ?] ? ? [=].
  - cbn [Client.deduplicatePackages_loop]. case_bool_decide as Hkey; cbn [negb].
    + destruct (IH packageMap) as (new & -> & Hsub & Hfirst).
      exists new. split; [done|]. split; [by apply sublist_cons|].
      intros [|q before] pkg after [= Hp Hrest] Hfresh Hbefore.
      * by subst pkg.
      * subst q. apply (Hfirst before pkg after Hrest Hfresh).
        by intros ?; apply Hbefore, list_elem_of_further.
    + destruct (IH (packageMap ++ [(Client.packageKey p, p)]))
        as (new & -> & Hsub & Hfirst).
      exists ((Client.packageKey p, p) :: new). split; [by rewrite <- app_assoc|].
      split; [by apply sublist_skip|].
      intros [|q before] pkg after [= Hp Hrest] Hfresh Hbefore.
      * subst pkg. apply list_elem_of_here.
      * subst q. apply list_elem_of_further.
        apply (Hfirst before pkg after Hrest).
        -- rewrite fmap_app, elem_of_app. intros [?|Hp]; [done|].
           apply list_elem_of_singleton in Hp. apply Hbefore. cbn in Hp.
           rewrite Hp. apply list_elem_of_here.
        -- by intros ?; apply Hbefore, list_elem_of_further.
Qed.

Lemma sublist_full {A} (l1 l2 : list A) :
  l1 `sublist_of` l2 → length l2 ≤ length l1 → l1 = l2.
Proof.
  induction 1 as [|x l1 l2 Hsub IH|x l1 l2 Hsub IH]; cbn; intros Hlength.
  - reflexivity.
  - f_equal. apply IH. lia.
  - apply sublist_length in Hsub. lia.
Qed.

(** Deduplication keeps the packages in their order and keeps, of the
    packages under one key, the first: a package with no earlier package under
    its key survives. A list without repeated keys is left as it is, so
    deduplicating twice is deduplicating once. *)
Theorem deduplicatePackages_first_occurrences (packages : list Package.t) :
  Client.deduplicatePackages packages `sublist_of` packages
  ∧ (∀ before pkg after,
       packages = before ++ pkg :: after →
       Client.packageKey pkg ∉ Client.packageKey <$> before →
       pkg ∈ Client.deduplicatePackages packages)
  ∧ (NoDup (Client.packageKey <$> packages) →
       Client.deduplicatePackages packages = packages)
  ∧ Client.deduplicatePackages (Client.deduplicatePackages packages)
    = Client.deduplicatePackages packages.
Proof.
  assert (Hsublist : ∀ l, Client.deduplicatePackages l `sublist_of` l).
  { intros l. unfold Client.deduplicatePackages.
    by destruct (deduplicatePackages_loop_first l []) as (new & -> & Hsub & _). }
  assert (Hidentity : ∀ l, NoDup (Client.packageKey <$> l) →
                           Client.deduplicatePackages l = l).
  { intros l Hnodup. apply sublist_full; [apply Hsublist|].
    destruct (deduplicatePackages_spec l) as (_ & _ & _ & ->).
    rewrite size_list_to_set by done. by rewrite length_fmap. }
  split; [apply Hsublist|]. split; [|split; [apply Hidentity|]].
  - intros before pkg after Hpackages Hbefore. unfold Client.deduplicatePackages.
    destruct (deduplicatePackages_loop_first packages []) as (new & -> & _ & Hfirst).
    apply (Hfirst before pkg after Hpackages); [|done]. apply not_elem_of_nil.
  - apply Hidentity. by destruct (deduplicatePackages_spec packages) as (? & _).
Qed.

(** ** The names of a payload *)

Lemma buildRequestPayload_loop_present packages :
  ∀ payload result : NpmAuditRequest,
    versions_present payload →
    Client.buildRequestPayload_loop packages payload = Returns result →
    versions_present result.
Proof.
  induction packages as [|pkg rest IH]; intros payload result Hpresent.
  - by intros [= <-].
  - cbn [Client.buildRequestPayload_loop]. unfold JS.get.
    destruct (payload !! Package.name pkg) as [versions|] eqn:Hlookup.
    + rewrite Hlookup. unfold includes. case_bool_decide as Hin; cbn [negb].
      * by apply IH.
      * apply IH. intros name.
        destruct (decide (name = Package.name pkg)) as [->|Hname].
        -- rewrite lookup_insert_eq. intros [= Hnil].
           by apply app_eq_nil in Hnil as [_ [=]].
        -- by rewrite lookup_insert_ne.
    + case_bool_decide as Hinherited.
      { by rewrite Hlookup. }
      rewrite lookup_insert_eq. unfold includes.
      rewrite bool_decide_eq_false_2 by apply not_elem_of_nil. cbn [negb app].
      rewrite insert_insert_eq. apply IH. intros name.
      destruct (decide (name = Package.name pkg)) as [->|Hname].
      * by rewrite lookup_insert_eq.
      * by rewrite lookup_insert_ne.
Qed.

(** A payload that is built names exactly the packages it was built from,
    and lists at least one version under each name. *)
Theorem buildRequestPayload_names
    (packages : list Package.t) (payload : NpmAuditRequest) :
  Client.buildRequestPayload packages = Returns payload →
  (∀ name, is_Some (payload !! name) ↔ name ∈ Package.name <$> packages)
  ∧ ∀ name versions, payload !! name = Some versions → versions ≠ [].
Proof.
  intros Hbuild.
  assert (Hpresent : versions_present payload).
  { apply (buildRequestPayload_loop_present packages ∅ payload); [|exact Hbuild].
    intros name. by rewrite lookup_empty. }
  pose proof (buildRequestPayload_Returns_plain packages payload Hbuild) as Hplain.
  destruct (buildRequestPayload_spec packages Hplain) as (p & Hp & _ & Hrequests).
  rewrite Hbuild in Hp. injection Hp as <-. split.
  - intros name. split.
    + intros [[|version versions] Hlookup]; [by apply Hpresent in Hlookup|].
      destruct (proj1 (Hrequests name version)) as (pkg & Hpkg & <- & _).
      { exists (version :: versions). split; [done|]. apply list_elem_of_here. }
      by apply list_elem_of_fmap_2.
    + intros (pkg & -> & Hpkg)%list_elem_of_fmap.
      destruct (proj2 (Hrequests (Package.name pkg) (Package.version pkg)))
        as (versions & Hlookup & _); [by exists pkg|].
      by exists versions.
  - intros name versions Hlookup ->. by apply Hpresent in Hlookup.
Qed.

Lemma buildRequestPayload_names_witness :
  is_Some (({[ "lodash" := ["4.17.20"; "4.17.21"] ]} : NpmAuditRequest) !! "express")
  ↔ "express" ∈ Package.name <$> [Fixtures.package "lodash" "4.17.20" "^4.0.0";
                                   Fixtures.package "lodash" "4.17.21" "^4.0.0"].
Proof.
  apply (buildRequestPayload_names
           [Fixtures.package "lodash" "4.17.20" "^4.0.0";
            Fixtures.package "lodash" "4.17.21" "^4.0.0"]).
  vm_compute. reflexivity.
Defined.

(** ** What a scan reports and sends *)

Lemma ceil_div_mono n m k : n ≤ m → ceil_div n k ≤ ceil_div m k.
Proof.
  intros Hnm. unfold ceil_div. destruct k as [|k]; [done|].
  apply Nat.Div0.div_le_mono. lia.
Qed.

(** A scan returns records about installed packages only, and sends at
    most [⌈N/1000⌉] requests for [N] installed packages: for an empty
    installation it reports nothing and sends nothing. *)
Theorem scan_reports_installed
    (satisfies : string → string → result bool)
    (respond : sent → NpmAuditRequest → result json)
    (packages : list Package.t) (w : sent) :
  ∃ records payloads,
    Scanner.scan satisfies respond packages w = (Returns records, w ++ payloads)
    ∧ Forall (λ record, Advisory.package record ∈ Package.name <$> packages) records
    ∧ length payloads
      ≤ ceil_div (length packages) (MAX_PACKAGES_PER_REQUEST NPM_AUDIT_API)
    ∧ (packages = [] → records = [] ∧ payloads = []).
Proof.
  rewrite scan_run.
  assert (Hrecords :
    Forall (λ record, Advisory.package record ∈ Package.name <$> packages)
      (answer satisfies
         (Client.queryVulnerabilities NPM_AUDIT_API respond packages w).1 packages)).
  { unfold answer.
    destruct (Client.queryVulnerabilities NPM_AUDIT_API respond packages w).1
      as [advisories| |]; [|constructor..].
    destruct (processAdvisories_spec satisfies advisories packages)
      as (matches & -> & _ & Hmatches). cbn [surviving].
    apply Forall_fmap. eapply Forall_impl; [exact Hmatches|].
    intros [advisory pkg] (_ & Hpkg & _). cbn in *. by apply list_elem_of_fmap_2. }
  assert (Hsent : ∃ payloads,
    (Client.queryVulnerabilities NPM_AUDIT_API respond packages w).2 = w ++ payloads
    ∧ length payloads
      ≤ ceil_div (length packages) (MAX_PACKAGES_PER_REQUEST NPM_AUDIT_API)).
  { destruct (decide (Forall plain_name (Client.deduplicatePackages packages)))
      as [Hplain|Hinherited].
    - destruct (queryVulnerabilities_run NPM_AUDIT_API respond packages w)
        as (payloads & Hpayloads & -> & _); [cbn; lia|done|].
      exists payloads. split; [done|].
      rewrite <- (Forall2_length _ _ _ Hpayloads), length_batches.
      apply ceil_div_mono, sublist_length.
      unfold Client.deduplicatePackages.
      by destruct (deduplicatePackages_loop_first packages []) as (new & -> & ? & _).
    - apply not_Forall_Exists in Hinherited; [|apply _].
      exists []. rewrite app_nil_r. split; [|cbn; lia].
      unfold Client.queryVulnerabilities. case_bool_decide; [done|].
      by rewrite (buildRequestPayload_inherited _ Hinherited). }
  destruct Hsent as (payloads & -> & Hlength).
  eexists _, payloads. split; [reflexivity|]. split; [exact Hrecords|].
  split; [exact Hlength|]. intros ->. split.
  - cbn in Hrecords. destruct (answer _ _ _) as [|record records]; [done|].
    apply Forall_cons in Hrecords as [[]%elem_of_nil _].
  - cbn in Hlength. destruct payloads; [done|]. cbn in Hlength. lia.
Qed.

(** ** A scan against a registry that answers faithfully *)

(** Among well-formed packages, deduplication loses no name and version. *)
Lemma deduplicatePackages_covers packages pkg :
  Forall well_formed packages → pkg ∈ packages →
  ∃ pkg', pkg' ∈ Client.deduplicatePackages packages
          ∧ Package.name pkg' = Package.name pkg
          ∧ Package.version pkg' = Package.version pkg.
Proof.
  intros Hwf Hpkg.
  destruct (deduplicatePackages_spec packages) as (_ & Hkeys & Hsub & _).
  assert (Hkey : Client.packageKey pkg
                 ∈ Client.packageKey <$> Client.deduplicatePackages packages).
  { apply Hkeys. by apply list_elem_of_fmap_2. }
  apply list_elem_of_fmap in Hkey as (pkg' & Hkey & Hpkg').
  exists pkg'. split; [done|].
  pose proof (proj1 (Forall_forall _ _) Hwf pkg Hpkg) as [_ Hv].
  pose proof (proj1 (Forall_forall _ _) Hwf pkg' (Hsub _ Hpkg')) as [_ Hv'].
  unfold Client.packageKey in Hkey.
  by destruct (key_inj _ _ _ _ Hv Hv' Hkey) as [-> ->].
Qed.

Lemma queryVulnerabilities_serves
    (api : NPM_AUDIT_API_t) (respond : sent → NpmAuditRequest → result json)
    (db : string → string → list NpmAdvisory.t) (packages : list Package.t) (w : sent) :
  0 < MAX_PACKAGES_PER_REQUEST api →
  Forall plain_name (Client.deduplicatePackages packages) →
  serves respond db →
  ∃ advisories,
    (Client.queryVulnerabilities api respond packages w).1 = Returns advisories
    ∧ ∀ advisory,
        advisory ∈ advisories
        ↔ ∃ pkg, pkg ∈ Client.deduplicatePackages packages
                 ∧ advisory ∈ db (Package.name pkg) (Package.version pkg).
Proof.
  intros Hk Hunique Hserves.
  destruct (queryVulnerabilities_run api respond packages w Hk Hunique)
    as (payloads & Hpayloads & _ & ->).
  pose proof (payloads_cover _ _ _ Hk Hunique Hpayloads) as Hcover.
  assert (Hasked : ∀ advisory,
            (∃ payload, payload ∈ payloads ∧ answers db payload advisory)
            ↔ ∃ pkg, pkg ∈ Client.deduplicatePackages packages
                     ∧ advisory ∈ db (Package.name pkg) (Package.version pkg)).
  { intros advisory. split.
    - intros (payload & Hpayload & n & v & Hnv & Hdb).
      destruct (proj1 (Hcover n v)) as (pkg & Hpkg & <- & <-); [by exists payload|].
      by exists pkg.
    - intros (pkg & Hpkg & Hdb).
      destruct (proj2 (Hcover (Package.name pkg) (Package.version pkg)))
        as (payload & Hpayload & Hnv); [by exists pkg|].
      exists payload. split; [done|]. by eexists _, _. }
  case_bool_decide as Hmany.
  - eexists. split; [reflexivity|]. intros advisory.
    by rewrite (batched_members respond db payloads Hserves).
  - rewrite batches_whole in Hpayloads by lia.
    case_bool_decide as Hempty.
    + apply Forall2_nil_inv_l in Hpayloads as ->. exists []. split; [done|].
      intros advisory. rewrite <- Hasked. rewrite elem_of_nil. split; [done|].
      by intros (? & []%elem_of_nil & _).
    + apply Forall2_cons_inv_l in Hpayloads as (payload & rest & _ & Hrest & ->).
      apply Forall2_nil_inv_l in Hrest as ->. cbn [batch_outcomes].
      destruct (Hserves w payload) as (advisories & -> & Hmembers).
      exists advisories. split; [done|]. intros advisory.
      rewrite <- Hasked, Hmembers. split.
      * intros Hanswers. exists payload. split; [apply list_elem_of_here|done].
      * by intros (p & ->%list_elem_of_singleton & Hanswers).
Qed.

(** Against a registry that answers every request with exactly the
    advisories it holds for the packages asked about, a scan of well-formed
    packages misses nothing: every installed package that such an advisory
    names, at a version in its vulnerable range, is reported under the key of
    that advisory and package. *)
Theorem scan_finds_every_match
    (satisfies : string → string → result bool)
    (respond : sent → NpmAuditRequest → result json)
    (db : string → string → list NpmAdvisory.t)
    (packages : list Package.t) (w : sent) :
  serves respond db →
  Forall well_formed packages →
  ∃ matches w',
    Scanner.scan satisfies respond packages w = (Returns (record_of <$> matches), w')
    ∧ ∀ pkg advisory,
        pkg ∈ packages →
        advisory ∈ db (Package.name pkg) (Package.version pkg) →
        subject advisory = Some (Package.name pkg) →
        affected satisfies (Package.version pkg)
          (NpmAdvisory.vulnerable_versions advisory) = true →
        ∃ m, m ∈ matches
             ∧ Processor.pairKey m.1 m.2 = Processor.pairKey advisory pkg.
Proof.
  intros Hserves Hwf. rewrite scan_run.
  destruct (deduplicatePackages_spec packages) as (_ & _ & Hsub & _).
  assert (Hunique : Forall plain_name (Client.deduplicatePackages packages)).
  { apply Forall_forall. intros pkg Hpkg%Hsub.
    eapply Forall_forall in Hwf; [|exact Hpkg]. apply Hwf. }
  destruct (queryVulnerabilities_serves NPM_AUDIT_API respond db packages w)
    as (advisories & -> & Hadvisories); [cbn; lia|done..|].
  destruct (processAdvisories_run satisfies advisories packages)
    as (matches & Hrun & _ & Hcomplete & _).
  exists matches. eexists. split; [unfold answer; by rewrite Hrun|].
  intros pkg advisory Hpkg Hdb Hsubject Haffected.
  assert (Hin : advisory ∈ advisories).
  { apply Hadvisories.
    destruct (deduplicatePackages_covers packages pkg Hwf Hpkg)
      as (pkg' & Hpkg' & Hname & Hversion).
    exists pkg'. split; [done|]. by rewrite Hname, Hversion. }
  destruct (proj1 (list_elem_of_fmap _ _ _) (Hcomplete (advisory, pkg) ltac:(done)))
    as (m & Hkey & Hm).
  exists m. split; [done|]. symmetry. exact Hkey.
Qed.

Lemma scan_finds_every_match_witness :
  ∃ matches w',
    Scanner.scan Semver.satisfies Registry.respond
      [Fixtures.package "express" "4.18.2" "^4.18.0";
       Fixtures.package "lodash" "4.17.20" "^4.0.0"] []
    = (Returns (record_of <$> matches), w')
    ∧ ∃ m, m ∈ matches
           ∧ Processor.pairKey m.1 m.2
             = Processor.pairKey Registry.lodash_advisory
                 (Fixtures.package "lodash" "4.17.20" "^4.0.0").
Proof.
  destruct (scan_finds_every_match Semver.satisfies Registry.respond
              Registry.advisories_of
              [Fixtures.package "express" "4.18.2" "^4.18.0";
               Fixtures.package "lodash" "4.17.20" "^4.0.0"] [])
    as (matches & w' & Hscan & Hcomplete).
  - exact Registry_serves.
  - apply (bool_decide_unpack _). vm_compute. exact I.
  - exists matches, w'. split; [exact Hscan|].
    apply (Hcomplete (Fixtures.package "lodash" "4.17.20" "^4.0.0")
             Registry.lodash_advisory).
    + apply list_elem_of_further, list_elem_of_here.
    + apply list_elem_of_here.
    + reflexivity.
    + reflexivity.
Defined.

(** ** Severity priorities *)

(** The priorities of the five severities are the numbers 1 to 5, one
    each, and every severity that maps to [fatal] ranks above every one that
    maps to [warn]. *)
Theorem severityToPriority_ranks :
  (∀ severity, ∃ n,
      Severity.severityToPriority (Severity.label severity) = Own n ∧ 1 ≤ n ≤ 5)
  ∧ (∀ s1 s2 n,
      Severity.severityToPriority (Severity.label s1) = Own n →
      Severity.severityToPriority (Severity.label s2) = Own n → s1 = s2)
  ∧ (∀ s1 s2 n1 n2,
      Severity.severityToPriority (Severity.label s1) = Own n1 →
      Severity.severityToPriority (Severity.label s2) = Own n2 →
      Severity.mapSeverityToLevel s1 = fatal →
      Severity.mapSeverityToLevel s2 = warn →
      n2 < n1).
Proof.
  split; [|split].
  - intros []; eexists; (split; [vm_compute; reflexivity|lia]).
  - intros [] [] n; vm_compute; congruence.
  - intros [] [] n1 n2; vm_compute; intros [= <-] [= <-]; try discriminate; lia.
Qed.

Lemma priorityMap_lookup_None (severity : string) :
  (∀ s, Severity.label s ≠ severity) →
  Severity.priorityMap !! severity = None.
Proof.
  intros Hother. unfold Severity.priorityMap.
  rewrite lookup_insert_ne by apply (Hother critical).
  rewrite lookup_insert_ne by apply (Hother high).
  rewrite lookup_insert_ne by apply (Hother moderate).
  rewrite lookup_insert_ne by apply (Hother low).
  apply lookup_singleton_ne, (Hother info).
Qed.

(** A string that is none of the five severities has priority 0, unless
    it names a member of [Object.prototype]: then the result is that member,
    and no number. *)
Theorem severityToPriority_unknown (severity : string) :
  (∀ s, Severity.label s ≠ severity) →
  Severity.severityToPriority severity
  = if bool_decide (severity ∈ Object_prototype) then Inherited else Own 0.
Proof.
  intros Hother. unfold Severity.severityToPriority, JS.get.
  rewrite (priorityMap_lookup_None severity Hother).
  by case_bool_decide.
Qed.

Lemma severityToPriority_unknown_witness :
  Severity.severityToPriority "unknown" = Own 0
  ∧ Severity.severityToPriority "toString" = Inherited.
Proof.
  split.
  - rewrite (severityToPriority_unknown "unknown"); [reflexivity|].
    intros []; discriminate.
  - rewrite (severityToPriority_unknown "toString"); [reflexivity|].
    intros []; discriminate.
Defined.

(** ** Configuration *)

(** [getConfig] answers with the default when the variable is unset or
    empty and when the parser throws. Without a parser, a default that is a
    string, a number or a boolean is replaced by a value of its own type only,
    a number that is not [NaN] never by [NaN], and a default of another type
    by the text of the variable. *)
Theorem getConfig_default_and_type
    (number : Type) (Number : string → number) (isNaN : number → bool)
    (env : string → option string) (envVar : string)
    (defaultValue : setting number) :
  (∀ parser,
      env envVar = None ∨ env envVar = Some "" →
      getConfig number Number isNaN env envVar defaultValue parser = defaultValue)
  ∧ (∀ parser value e,
      env envVar = Some value → parser value = Err e →
      getConfig number Number isNaN env envVar defaultValue (Some parser)
      = defaultValue)
  ∧ (kind_of defaultValue ≠ another →
      kind_of (getConfig number Number isNaN env envVar defaultValue None)
      = kind_of defaultValue)
  ∧ (∀ n, getConfig number Number isNaN env envVar defaultValue None = Num n →
          isNaN n = true → defaultValue = Num n)
  ∧ (∀ value, kind_of defaultValue = another →
       env envVar = Some value → value ≠ "" →
       getConfig number Number isNaN env envVar defaultValue None = Str value).
Proof.
  unfold getConfig. split; [|split; [|split; [|split]]].
  - intros parser [->| ->]; reflexivity.
  - intros parser value e -> Hthrows. rewrite Hthrows. by destruct (truthy value).
  - intros Hkind. destruct (env envVar) as [value|]; [|done].
    destruct (truthy value); [|done]. cbn [negb].
    destruct defaultValue as [s|d|b|]; [done| |done|done].
    by destruct (isNaN (Number value)).
  - intros n. destruct (env envVar) as [value|]; [|by intros ->].
    destruct (truthy value); cbn [negb]; [|by intros ->].
    destruct defaultValue as [s|d|b|]; [done| |done|done].
    destruct (isNaN (Number value)) eqn:Hnan; [done|].
    intros [= <-]. congruence.
  - intros value Hkind -> Hvalue. destruct value; [done|]. cbn.
    by destruct defaultValue.
Qed.

(** "handles case-insensitive boolean parsing" (tests/constants.test.ts); no
    number is read here. *)
Example getConfig_boolean_override :
  getConfig unit (λ _, tt) (λ _, false)
    (λ name, if bool_decide (name = "TEST_VAR") then Some "TRUE" else None)
    "TEST_VAR" (Bool false) None
  = Bool true.
Proof. reflexivity. Qed.
